(** * Vulkan pipeline cache (video_core/renderer_vulkan/vk_pipeline_cache.h)

    A shallow embedding of the cache keys, the cached shader object and
    the cache operations declared in [vk_pipeline_cache.h], together with
    the properties stated about them.

    Machine integers are values of [Z]; every place where the C++ code can
    lose bits (a shift or a product on [std::size_t], an increment on
    [u32]) is written with its reduction modulo the word size. *)

From Stdlib Require Import ZArith Lia.
From stdpp Require Import base decidable countable numbers list gmap.

Local Open Scope Z_scope.

(** ** Machine words *)

Module Word.

(** [std::size_t] is 64 bits wide on every target of the project. *)
Definition size_t_bits : Z := 64.

Definition to_size_t (x : Z) : Z := x mod 2 ^ size_t_bits.

Definition to_u32 (x : Z) : Z := x mod 2 ^ 32.

(** [x << n] on [std::size_t]: the bits shifted past bit 63 are lost. *)
Definition shl (x n : Z) : Z := to_size_t (Z.shiftl x n).

(** [x >> n] on an unsigned word never leaves the word. *)
Definition shr (x n : Z) : Z := Z.shiftr x n.

Definition add (x y : Z) : Z := to_size_t (x + y).

End Word.

(** ** Hashing interface

    [boost::hash_combine(seed, v)] updates [seed] in place from the hash of
    [v]; on the integers passed here [boost::hash] is the identity, so the
    combiner is a function of the old seed and the value. Boost is not part
    of the repository: the key code is stated over any combiner. *)

Class HashCombine := hash_combine : Z → Z → Z.

(** The combiner of the Boost documentation,
    [seed ^= v + 0x9e3779b9 + (seed << 6) + (seed >> 2)], on 64-bit
    words. *)
Definition boost_hash_combine : HashCombine :=
  λ seed v,
    Z.lxor seed
      (Word.add (Word.add (Word.add v 2654435769) (Word.shl seed 6))
         (Word.shr seed 2)).

(** [FixedPipelineState] and [RenderPassParams] are declared in headers
    outside this file. The key code uses exactly two members of each:
    [operator==], a field-wise comparison of a flat value struct, and
    [Hash() const noexcept], which returns a [std::size_t]. The values of
    such a struct can be enumerated, which lets a key index a map. *)
Class KeyField (A : Type) `{Countable A} := {
  field_eqb : A → A → bool;
  field_Hash : A → Z;
  field_eqb_spec : ∀ x y, field_eqb x y = true ↔ x = y;
  field_Hash_range : ∀ x, 0 ≤ field_Hash x < 2 ^ Word.size_t_bits
}.

(** [std::array<T, N>::operator==] on arrays of integers: element by
    element, over the whole array. *)
Fixpoint array_eqb (a b : list Z) : bool :=
  match a, b with
  | [], [] => true
  | x :: a', y :: b' => Z.eqb x y && array_eqb a' b'
  | _, _ => false
  end.

(** ** GraphicsPipelineCacheKey *)

Module Graphics.
Section Key.

Context {FixedPipelineState RenderPassParams : Type}.
Context `{KeyField FixedPipelineState} `{KeyField RenderPassParams}.
Context {combine : HashCombine}.

(** [shaders] is a [std::array<GPUVAddr, Maxwell::MaxShaderProgram>]:
    one 64-bit address per stage, in stage order. *)
Record GraphicsPipelineCacheKey := {
  fixed_state : FixedPipelineState;
  shaders : list Z;
  renderpass_params : RenderPassParams
}.

(** [Hash]: the local [hash] is threaded through the range-for loop over
    [shaders] and then through the final [hash_combine]. *)
Definition Hash (k : GraphicsPipelineCacheKey) : Z :=
  let hash := field_Hash (fixed_state k) in
  let hash := fold_left (λ hash shader, hash_combine hash shader) (shaders k) hash in
  let hash := hash_combine hash (field_Hash (renderpass_params k)) in
  hash.

(** [operator==]: equality of the two [std::tie] tuples, component by
    component. *)
Definition eqb (k rhs : GraphicsPipelineCacheKey) : bool :=
  field_eqb (fixed_state k) (fixed_state rhs)
  && array_eqb (shaders k) (shaders rhs)
  && field_eqb (renderpass_params k) (renderpass_params rhs).

(** The hash as the specification words it: the value reached after the
    first [n] stages is the value reached after [n - 1] stages combined
    with the address of stage [n - 1]; the render-pass hash comes last. *)
Fixpoint hash_after_stages (h0 : Z) (addrs : list Z) (n : nat) : Z :=
  match n with
  | O => h0
  | S m => hash_combine (hash_after_stages h0 addrs m) (nth m addrs 0)
  end.

Definition Hash_in_order (k : GraphicsPipelineCacheKey) : Z :=
  hash_combine
    (hash_after_stages (field_Hash (fixed_state k)) (shaders k)
       (length (shaders k)))
    (field_Hash (renderpass_params k)).

#[global] Instance key_eq_dec : EqDecision GraphicsPipelineCacheKey.
Proof. solve_decision. Defined.

#[global] Instance key_countable : Countable GraphicsPipelineCacheKey.
Proof.
  apply (inj_countable'
           (λ k, (fixed_state k, shaders k, renderpass_params k))
           (λ t, Build_GraphicsPipelineCacheKey t.1.1 t.1.2 t.2)).
  by intros [].
Defined.

End Key.
Arguments GraphicsPipelineCacheKey FixedPipelineState RenderPassParams : clear implicits.
End Graphics.

(** ** ComputePipelineCacheKey *)

Module Compute.

(** [workgroup_size] is a [std::array<u32, 3>]. *)
Record ComputePipelineCacheKey := {
  shader : Z;
  shared_memory_size : Z;
  workgroup_size : Z * Z * Z
}.

(** [Hash]: the casts to [std::size_t] widen (or keep) an unsigned value
    and change nothing; the left shifts act on 64-bit words. *)
Definition Hash (k : ComputePipelineCacheKey) : Z :=
  let '(wg0, wg1, wg2) := workgroup_size k in
  Z.lxor
    (Z.lxor
       (Z.lxor
          (Z.lxor (shader k)
             (Word.shl (Word.shr (shared_memory_size k) 7) 40))
          wg0)
       (Word.shl wg1 16))
    (Word.shl wg2 24).

Definition array3_eqb (a b : Z * Z * Z) : bool :=
  let '(a0, a1, a2) := a in
  let '(b0, b1, b2) := b in
  Z.eqb a0 b0 && Z.eqb a1 b1 && Z.eqb a2 b2.

(** [operator==] through [std::tie]. *)
Definition eqb (k rhs : ComputePipelineCacheKey) : bool :=
  Z.eqb (shader k) (shader rhs)
  && Z.eqb (shared_memory_size k) (shared_memory_size rhs)
  && array3_eqb (workgroup_size k) (workgroup_size rhs).

#[global] Instance key_eq_dec : EqDecision ComputePipelineCacheKey.
Proof. solve_decision. Defined.

#[global] Instance key_countable : Countable ComputePipelineCacheKey.
Proof.
  apply (inj_countable'
           (λ k, (shader k, shared_memory_size k, workgroup_size k))
           (λ t, Build_ComputePipelineCacheKey t.1.1 t.1.2 t.2)).
  by intros [].
Defined.

End Compute.

(** ** Descriptor binding enumeration *)

Module Descriptor.

(** Modelled from the spec: [ShaderEntries] is declared in
    [vk_shader_decompiler.h], which is not part of the sources at hand.
    A shader declares resources in four categories; a declared resource
    has a count (an array of textures has a count above one) and the
    descriptor-template stride it requires. *)
Inductive Category := ConstBuffer | GlobalBuffer | TextureSample | StorageImage.

Record Resource := {
  res_index : Z;
  res_count : Z;
  res_stride : Z
}.

Record ShaderEntries := {
  const_buffers : list Resource;
  global_buffers : list Resource;
  samplers : list Resource;
  images : list Resource
}.

(** Modelled from the spec: [VkDescriptorUpdateTemplateEntryKHR] comes
    from the Vulkan headers; an emitted entry has the four components the
    enumeration contract names. *)
Record TemplateEntry := {
  dstBinding : Z;
  entry_offset : Z;
  descriptorType : Category;
  descriptorCount : Z
}.

(** The three reference parameters [u32& binding], [u32& offset] and
    [std::vector<...>& template_entries] of the function. *)
Record Cursor := {
  binding : Z;
  offset : Z;
  template_entries : list TemplateEntry
}.

(** Modelled from the spec: one declared resource takes the current
    binding and offset, then the binding advances by one and the offset
    by the stride of the resource, both as [u32]. *)
Definition AddEntry (cat : Category) (cur : Cursor) (r : Resource) : Cursor :=
  {| binding := Word.to_u32 (binding cur + 1);
     offset := Word.to_u32 (offset cur + res_stride r);
     template_entries :=
       template_entries cur ++
       [ {| dstBinding := binding cur;
            entry_offset := offset cur;
            descriptorType := cat;
            descriptorCount := res_count r |} ] |}.

Definition AddEntries (cat : Category) (container : list Resource) (cur : Cursor) : Cursor :=
  fold_left (AddEntry cat) container cur.

(** Modelled from the spec: the body of
    [FillDescriptorUpdateTemplateEntries], of which the header only has
    the declaration. Categories are walked in the order constant buffers,
    global buffers, texture samples, storage images. *)
Definition FillDescriptorUpdateTemplateEntries (entries : ShaderEntries) (cur : Cursor) : Cursor :=
  let cur := AddEntries ConstBuffer (const_buffers entries) cur in
  let cur := AddEntries GlobalBuffer (global_buffers entries) cur in
  let cur := AddEntries TextureSample (samplers entries) cur in
  let cur := AddEntries StorageImage (images entries) cur in
  cur.

(** What the contract promises about the categories and counts: all
    constant buffers, then all global buffers, then all texture samples,
    then all storage images, each group in declaration order. *)
Definition declared_in_order (entries : ShaderEntries) : list (Category * Z) :=
  map (λ r, (ConstBuffer, res_count r)) (const_buffers entries)
  ++ map (λ r, (GlobalBuffer, res_count r)) (global_buffers entries)
  ++ map (λ r, (TextureSample, res_count r)) (samplers entries)
  ++ map (λ r, (StorageImage, res_count r)) (images entries).

Definition resource_total (entries : ShaderEntries) : nat :=
  (length (const_buffers entries) + length (global_buffers entries)
   + length (samplers entries) + length (images entries))%nat.

(** Category and count of an emitted entry. *)
Definition shape (e : TemplateEntry) : Category * Z :=
  (descriptorType e, descriptorCount e).

(** The binding indices [b0], [b0 + 1], ... of [n] consecutive entries. *)
Definition consecutive_bindings (b0 : Z) (n : nat) : list Z :=
  map (λ i, Word.to_u32 (b0 + Z.of_nat i)) (seq 0 n).

End Descriptor.

(** ** CachedShader *)

Module Shader.
Section Objects.

(** [VideoCommon::Shader::Registry] and [VideoCommon::Shader::ShaderIR]
    belong to the decompiler and stay abstract. *)
Context {Registry ShaderIR : Type}.

Record CachedShader := {
  gpu_addr : Z;
  program_code : list Z;
  registry : Registry;
  shader_ir : ShaderIR;
  entries : Descriptor.ShaderEntries
}.

Definition sizeof_u64 : Z := 8.

Definition GetGpuAddr (s : CachedShader) : Z := gpu_addr s.

(** [program_code.size() * sizeof(u64)], a product of two [std::size_t]. *)
Definition GetSizeInBytes (s : CachedShader) : Z :=
  Word.to_size_t (Z.of_nat (length (program_code s)) * sizeof_u64).

Definition GetIR (s : CachedShader) : ShaderIR := shader_ir s.

Definition GetRegistry (s : CachedShader) : Registry := registry s.

Definition GetEntries (s : CachedShader) : Descriptor.ShaderEntries := entries s.

(** [using Shader = std::shared_ptr<CachedShader>]: a reference to a heap
    object. [shader_ref] is the identity of the object pointed to; two
    references denote the same instance exactly when it agrees. The
    object is never written after its construction, so the reference
    carries its contents. *)
Record Shader := {
  shader_ref : nat;
  shader_obj : CachedShader
}.

End Objects.
Arguments CachedShader Registry ShaderIR : clear implicits.
Arguments Shader Registry ShaderIR : clear implicits.
End Shader.

(** ** VKPipelineCache

    The header declares the cache operations and the fields they work on;
    their bodies are in [vk_pipeline_cache.cpp]. The fields below are the
    ones of the class, the operations follow the design text. *)

Module Cache.

Inductive Error := DecompilationError | PipelineBuildError.

Inductive Result (A : Type) :=
| Ok (a : A)
| Err (e : Error).

Arguments Ok {A} a.
Arguments Err {A} e.

(** The stage a shader is decompiled for: one of the graphics program
    slots, or the compute stage. *)
Inductive Stage :=
| GraphicsStage (slot : nat)
| ComputeStage.

Section Machine.

Context {FixedPipelineState RenderPassParams : Type}.
Context `{KeyField FixedPipelineState} `{KeyField RenderPassParams}.
Context {Registry ShaderIR : Type}.

Abbreviation GraphicsKey :=
  (Graphics.GraphicsPipelineCacheKey FixedPipelineState RenderPassParams).
Abbreviation ComputeKey := Compute.ComputePipelineCacheKey.
Abbreviation ShaderPtr := (Shader.Shader Registry ShaderIR).

(** Modelled from the spec: the external collaborators the constructor
    receives by reference ([system], [device], ...), whose classes are
    declared elsewhere, as the cache sees them during one call: the engine
    state (bound program address per graphics slot, [None] for
    a slot with no program), GPU memory, the decompiler ([None] stands for
    a DecompilationError) and the pipeline builders ([false] stands for a
    PipelineBuildError). *)
Record Collaborators := {
  bound_programs : list (option Z);
  read_program : Stage → Z → list Z;
  main_offset : Stage → Z;
  Decompile :
    list Z → Stage → Z → option (ShaderIR * Registry * Descriptor.ShaderEntries);
  build_graphics :
    GraphicsKey → list (option ShaderPtr) → list Descriptor.TemplateEntry → bool;
  build_compute :
    ComputeKey → ShaderPtr → list Descriptor.TemplateEntry → bool
}.

(** The fields of the class, without the references to collaborators.
    [shader_cache] is the object store of the [RasterizerCache<Shader>]
    base, keyed by GPU address as the design text has it. A
    [std::unique_ptr] held by a map, and the raw pointer
    [last_graphics_pipeline], are the identity of the pipeline object
    pointed to. Two components are not fields of the class: [next_object],
    the identity the next constructed object receives, and
    [graphics_requests], the construction requests sent so far to the
    graphics pipeline builder. *)
Record VKPipelineCache := {
  shader_cache : gmap Z ShaderPtr;
  last_shaders : list (option ShaderPtr);
  last_graphics_key : GraphicsKey;
  last_graphics_pipeline : option nat;
  graphics_cache : gmap GraphicsKey nat;
  compute_cache : gmap ComputeKey nat;
  next_object : nat;
  graphics_requests : list GraphicsKey
}.

(** A freshly constructed cache: [last_graphics_pipeline = nullptr], empty
    maps, [last_graphics_key] default-constructed. *)
Definition init (default_key : GraphicsKey) : VKPipelineCache :=
  {| shader_cache := ∅;
     last_shaders := [];
     last_graphics_key := default_key;
     last_graphics_pipeline := None;
     graphics_cache := ∅;
     compute_cache := ∅;
     next_object := 0%nat;
     graphics_requests := [] |}.

(** *** Calls that change the cache and may fail *)

Definition M (A : Type) : Type := VKPipelineCache → Result A * VKPipelineCache.

Definition ret {A} (a : A) : M A := λ c, (Ok a, c).

Definition throw {A} (e : Error) : M A := λ c, (Err e, c).

Definition bind {A B} (m : M A) (k : A → M B) : M B :=
  λ c, match m c with
       | (Ok a, c') => k a c'
       | (Err e, c') => (Err e, c')
       end.

Notation "'let*' x ':=' m 'in' k" := (bind m (λ x, k))
  (at level 10, x name, m at level 100, k at level 200).

Definition register_shader (sh : ShaderPtr) (c : VKPipelineCache) : VKPipelineCache :=
  {| shader_cache := <[Shader.gpu_addr (Shader.shader_obj sh) := sh]> (shader_cache c);
     last_shaders := last_shaders c;
     last_graphics_key := last_graphics_key c;
     last_graphics_pipeline := last_graphics_pipeline c;
     graphics_cache := graphics_cache c;
     compute_cache := compute_cache c;
     next_object := S (next_object c);
     graphics_requests := graphics_requests c |}.

Definition set_last_shaders (shs : list (option ShaderPtr)) (c : VKPipelineCache) : VKPipelineCache :=
  {| shader_cache := shader_cache c;
     last_shaders := shs;
     last_graphics_key := last_graphics_key c;
     last_graphics_pipeline := last_graphics_pipeline c;
     graphics_cache := graphics_cache c;
     compute_cache := compute_cache c;
     next_object := next_object c;
     graphics_requests := graphics_requests c |}.

Definition set_last_graphics (key : GraphicsKey) (p : nat) (c : VKPipelineCache) : VKPipelineCache :=
  {| shader_cache := shader_cache c;
     last_shaders := last_shaders c;
     last_graphics_key := key;
     last_graphics_pipeline := Some p;
     graphics_cache := graphics_cache c;
     compute_cache := compute_cache c;
     next_object := next_object c;
     graphics_requests := graphics_requests c |}.

Definition emplace_graphics (key : GraphicsKey) (c : VKPipelineCache) : VKPipelineCache :=
  {| shader_cache := shader_cache c;
     last_shaders := last_shaders c;
     last_graphics_key := last_graphics_key c;
     last_graphics_pipeline := last_graphics_pipeline c;
     graphics_cache := <[key := next_object c]> (graphics_cache c);
     compute_cache := compute_cache c;
     next_object := S (next_object c);
     graphics_requests := graphics_requests c |}.

Definition emplace_compute (key : ComputeKey) (c : VKPipelineCache) : VKPipelineCache :=
  {| shader_cache := shader_cache c;
     last_shaders := last_shaders c;
     last_graphics_key := last_graphics_key c;
     last_graphics_pipeline := last_graphics_pipeline c;
     graphics_cache := graphics_cache c;
     compute_cache := <[key := next_object c]> (compute_cache c);
     next_object := S (next_object c);
     graphics_requests := graphics_requests c |}.

Definition note_graphics_request (key : GraphicsKey) (c : VKPipelineCache) : VKPipelineCache :=
  {| shader_cache := shader_cache c;
     last_shaders := last_shaders c;
     last_graphics_key := last_graphics_key c;
     last_graphics_pipeline := last_graphics_pipeline c;
     graphics_cache := graphics_cache c;
     compute_cache := compute_cache c;
     next_object := next_object c;
     graphics_requests := graphics_requests c ++ [key] |}.

(** *** Shader Object Cache *)

(** Modelled from the spec: [GetOrCreate] of the Shader Object Cache, which
    the header inherits from [RasterizerCache<Shader>] and whose body is
    not at hand. A cached object is returned as it is; on a miss the
    bytecode is read, the decompiler builds IR, registry and entries, and
    the new object is inserted under its GPU address. *)
Definition GetOrCreate (env : Collaborators) (stage : Stage) (addr : Z) : M ShaderPtr :=
  λ c,
    match shader_cache c !! addr with
    | Some sh => (Ok sh, c)
    | None =>
        let code := read_program env stage addr in
        match Decompile env code stage (main_offset env stage) with
        | None => (Err DecompilationError, c)
        | Some (ir, reg, ents) =>
            let sh :=
              {| Shader.shader_ref := next_object c;
                 Shader.shader_obj :=
                   {| Shader.gpu_addr := addr;
                      Shader.program_code := code;
                      Shader.registry := reg;
                      Shader.shader_ir := ir;
                      Shader.entries := ents |} |} in
            (Ok sh, register_shader sh c)
        end
    end.

(** Modelled from the spec: [Unregister], declared in the header and
    defined elsewhere. The object leaves the Shader Object Cache; no
    back-pointer leads from a shader to the pipeline entries built from it,
    so the two pipeline maps are not visited. *)
Definition Unregister (sh : ShaderPtr) (c : VKPipelineCache) : VKPipelineCache :=
  {| shader_cache := delete (Shader.gpu_addr (Shader.shader_obj sh)) (shader_cache c);
     last_shaders := last_shaders c;
     last_graphics_key := last_graphics_key c;
     last_graphics_pipeline := last_graphics_pipeline c;
     graphics_cache := graphics_cache c;
     compute_cache := compute_cache c;
     next_object := next_object c;
     graphics_requests := graphics_requests c |}.

(** Modelled from the spec: the resolution of one address per graphics
    slot through [GetOrCreate], slot after slot, which [GetShaders] and the
    miss path of [GetGraphicsPipeline] share. A slot with no program stays
    empty. *)
Fixpoint resolve_stages (env : Collaborators) (slot : nat) (addrs : list (option Z)) : M (list (option ShaderPtr)) :=
  match addrs with
  | [] => ret []
  | None :: rest =>
      let* shs := resolve_stages env (S slot) rest in
      ret (None :: shs)
  | Some addr :: rest =>
      let* sh := GetOrCreate env (GraphicsStage slot) addr in
      let* shs := resolve_stages env (S slot) rest in
      ret (Some sh :: shs)
  end.

(** Modelled from the spec: [GetShaders], declared in the header. It reads
    the bound program addresses from the engine state, resolves each one
    through the Shader Object Cache and keeps the result in
    [last_shaders]. *)
Definition GetShaders (env : Collaborators) : M (list (option ShaderPtr)) :=
  let* shs := resolve_stages env 0 (bound_programs env) in
  λ c, (Ok shs, set_last_shaders shs c).

(** *** Pipeline maps *)

(** Modelled from the spec: the programs a graphics key references. A zero
    address in the key marks an unused stage. *)
Definition referenced_programs (key : GraphicsKey) : list (option Z) :=
  map (λ addr, if Z.eqb addr 0 then None else Some addr) (Graphics.shaders key).

Definition empty_cursor : Descriptor.Cursor :=
  {| Descriptor.binding := 0;
     Descriptor.offset := 0;
     Descriptor.template_entries := [] |}.

(** Modelled from the spec: the resource layout of a pipeline, which the
    private [DecompileShaders] of the header derives: the bindings of its
    shaders, stage after stage, with one running binding index and
    offset. *)
Definition binding_layout (shs : list (option ShaderPtr)) : list Descriptor.TemplateEntry :=
  Descriptor.template_entries
    (fold_left
       (λ cur slot,
          match slot with
          | Some sh =>
              Descriptor.FillDescriptorUpdateTemplateEntries
                (Shader.GetEntries (Shader.shader_obj sh)) cur
          | None => cur
          end)
       shs empty_cursor).

(** Modelled from the spec: the construction of a graphics pipeline by
    the builder. On success the new object is inserted under [key] and
    remembered by the fast path; on failure nothing is inserted. *)
Definition construct_graphics (env : Collaborators) (key : GraphicsKey) (shs : list (option ShaderPtr)) : M nat :=
  λ c,
    let c := note_graphics_request key c in
    if build_graphics env key shs (binding_layout shs) then
      let p := next_object c in
      (Ok p, set_last_graphics key p (emplace_graphics key c))
    else (Err PipelineBuildError, c).

(** Modelled from the spec: step 3 of [GetGraphicsPipeline]. The
    referenced shaders are resolved, their bindings enumerated, and the
    pipeline is requested. *)
Definition graphics_miss (env : Collaborators) (key : GraphicsKey) : M nat :=
  let* shs := resolve_stages env 0 (referenced_programs key) in
  construct_graphics env key shs.

(** Modelled from the spec: [GetGraphicsPipeline], declared in the header.
    Step 1 is the fast path on [last_graphics_key] and
    [last_graphics_pipeline], step 2 the map lookup, step 3 the miss. *)
Definition GetGraphicsPipeline (env : Collaborators) (key : GraphicsKey) : M nat :=
  λ c,
    match (if Graphics.eqb key (last_graphics_key c)
           then last_graphics_pipeline c else None) with
    | Some p => (Ok p, c)
    | None =>
        match graphics_cache c !! key with
        | Some p => (Ok p, set_last_graphics key p c)
        | None => graphics_miss env key c
        end
    end.

(** Modelled from the spec: the construction of a compute pipeline, with
    the shared-memory size and workgroup dimensions of the key. *)
Definition construct_compute (env : Collaborators) (key : ComputeKey) (sh : ShaderPtr) : M nat :=
  λ c,
    if build_compute env key sh (binding_layout [Some sh]) then
      (Ok (next_object c), emplace_compute key c)
    else (Err PipelineBuildError, c).

(** Modelled from the spec: [GetComputePipeline], declared in the header:
    a map lookup, and on a miss the single shader, its layout and the
    construction. *)
Definition GetComputePipeline (env : Collaborators) (key : ComputeKey) : M nat :=
  λ c,
    match compute_cache c !! key with
    | Some p => (Ok p, c)
    | None =>
        (let* sh := GetOrCreate env ComputeStage (Compute.shader key) in
         construct_compute env key sh) c
    end.

(** *** Reachable cache states *)

Inductive Request :=
| CallGetShaders (env : Collaborators)
| CallGetGraphicsPipeline (env : Collaborators) (key : GraphicsKey)
| CallGetComputePipeline (env : Collaborators) (key : ComputeKey)
| CallUnregister (sh : ShaderPtr).

(** The cache after a call, whatever the call returned. *)
Definition after (r : Request) (c : VKPipelineCache) : VKPipelineCache :=
  match r with
  | CallGetShaders env => (GetShaders env c).2
  | CallGetGraphicsPipeline env key => (GetGraphicsPipeline env key c).2
  | CallGetComputePipeline env key => (GetComputePipeline env key c).2
  | CallUnregister sh => Unregister sh c
  end.

Definition after_all (rs : list Request) (c : VKPipelineCache) : VKPipelineCache :=
  fold_left (λ c r, after r c) rs c.

Inductive reachable : VKPipelineCache → Prop :=
| reachable_init default_key : reachable (init default_key)
| reachable_after r c : reachable c → reachable (after r c).

(** The Shader Objects registered in the object store. *)
Definition registered (c : VKPipelineCache) (sh : ShaderPtr) : Prop :=
  ∃ addr, shader_cache c !! addr = Some sh.

(** The Shader Objects that are live: the cache owns a [std::shared_ptr]
    to them, in the object store or in [last_shaders]. *)
Definition live (c : VKPipelineCache) (sh : ShaderPtr) : Prop :=
  registered c sh ∨ Some sh ∈ last_shaders c.

(** What every reachable cache satisfies. *)
Record coherent (c : VKPipelineCache) : Prop := {
  shader_keyed : ∀ addr sh,
    shader_cache c !! addr = Some sh →
    Shader.gpu_addr (Shader.shader_obj sh) = addr;
  shader_allocated : ∀ addr sh,
    shader_cache c !! addr = Some sh → (Shader.shader_ref sh < next_object c)%nat;
  graphics_allocated : ∀ key p,
    graphics_cache c !! key = Some p → (p < next_object c)%nat;
  fast_path_in_map : ∀ p,
    last_graphics_pipeline c = Some p →
    graphics_cache c !! last_graphics_key c = Some p
}.

(** [c'] differs from [c] at most by shader objects registered under
    addresses that were free, and by allocations. *)
Record grows (c c' : VKPipelineCache) : Prop := {
  grows_shaders : ∀ addr sh,
    shader_cache c !! addr = Some sh → shader_cache c' !! addr = Some sh;
  grows_next : (next_object c ≤ next_object c')%nat;
  grows_graphics : graphics_cache c' = graphics_cache c;
  grows_compute : compute_cache c' = compute_cache c;
  grows_key : last_graphics_key c' = last_graphics_key c;
  grows_pipeline : last_graphics_pipeline c' = last_graphics_pipeline c;
  grows_requests : graphics_requests c' = graphics_requests c
}.

(** What every reachable cache satisfies about [last_shaders]: an object
    it references was allocated by this cache, is the registered object of
    its address or older than it, and is the only object of its address
    there. *)
Record tracked (c : VKPipelineCache) : Prop := {
  last_allocated : ∀ sh,
    Some sh ∈ last_shaders c → (Shader.shader_ref sh < next_object c)%nat;
  last_older : ∀ sh sh',
    Some sh ∈ last_shaders c →
    shader_cache c !! Shader.gpu_addr (Shader.shader_obj sh) = Some sh' →
    sh' = sh ∨ (Shader.shader_ref sh < Shader.shader_ref sh')%nat;
  last_unique : ∀ sh1 sh2,
    Some sh1 ∈ last_shaders c → Some sh2 ∈ last_shaders c →
    Shader.gpu_addr (Shader.shader_obj sh1) = Shader.gpu_addr (Shader.shader_obj sh2) →
    sh1 = sh2
}.

(** [c'] keeps [last_shaders], and every object it has registered was
    registered in [c] or allocated since. *)
Record extends (c c' : VKPipelineCache) : Prop := {
  extends_last : last_shaders c' = last_shaders c;
  extends_next : (next_object c ≤ next_object c')%nat;
  extends_shaders : ∀ addr sh,
    shader_cache c' !! addr = Some sh →
    shader_cache c !! addr = Some sh ∨ (next_object c ≤ Shader.shader_ref sh)%nat
}.

(** A slot is resolved in [c] by the object the cache holds for its
    address; a slot with no program is resolved by the empty slot. *)
Definition resolved_in (c : VKPipelineCache) (slot : option Z) (osh : option ShaderPtr) : Prop :=
  match slot, osh with
  | None, None => True
  | Some addr, Some sh => shader_cache c !! addr = Some sh
  | _, _ => False
  end.

End Machine.
End Cache.

(** ** A concrete instantiation

    Used to run the definitions: a fixed state and render-pass parameters
    that are a single word each, hashed to themselves. *)

Module Sample.

Lemma word_hash_range (x : Z) : 0 ≤ Word.to_size_t x < 2 ^ Word.size_t_bits.
Proof. apply Z.mod_pos_bound. reflexivity. Qed.

#[global] Instance word_field : KeyField Z :=
  {| field_eqb := Z.eqb;
     field_Hash := Word.to_size_t;
     field_eqb_spec := Z.eqb_eq;
     field_Hash_range := word_hash_range |}.

Definition graphics_key (fs : Z) (addrs : list Z) (rp : Z) : Graphics.GraphicsPipelineCacheKey Z Z :=
  {| Graphics.fixed_state := fs;
     Graphics.shaders := addrs;
     Graphics.renderpass_params := rp |}.

Definition compute_key (addr size x y z : Z) : Compute.ComputePipelineCacheKey :=
  {| Compute.shader := addr;
     Compute.shared_memory_size := size;
     Compute.workgroup_size := (x, y, z) |}.

Definition no_entries : Descriptor.ShaderEntries :=
  {| Descriptor.const_buffers := [];
     Descriptor.global_buffers := [];
     Descriptor.samplers := [];
     Descriptor.images := [] |}.

(** Collaborators that bind a vertex and a fragment program, decompile
    every program (the IR is the length of the bytecode) and refuse to
    build a graphics pipeline for fixed state 13. *)
Definition env : Cache.Collaborators (FixedPipelineState := Z) (RenderPassParams := Z) (Registry := unit) (ShaderIR := Z) :=
  {| Cache.bound_programs := [Some 0x1000; None; None; None; None; Some 0x2000];
     Cache.read_program := λ _ addr, [addr; 0];
     Cache.main_offset := λ _, 0;
     Cache.Decompile := λ code _ _, Some (Z.of_nat (length code), tt, no_entries);
     Cache.build_graphics := λ key _ _, negb (Z.eqb (Graphics.fixed_state key) 13);
     Cache.build_compute := λ _ _ _, true |}.

Definition shader_at (ref : nat) (addr : Z) : Shader.Shader unit Z :=
  {| Shader.shader_ref := ref;
     Shader.shader_obj :=
       {| Shader.gpu_addr := addr;
          Shader.program_code := [addr; 0];
          Shader.registry := tt;
          Shader.shader_ir := 2;
          Shader.entries := no_entries |} |}.

Definition fresh : Cache.VKPipelineCache (FixedPipelineState := Z) (RenderPassParams := Z) (Registry := unit) (ShaderIR := Z) :=
  Cache.init (graphics_key 0 [0; 0; 0; 0; 0; 0] 0).

Definition draw_key (fs : Z) : Graphics.GraphicsPipelineCacheKey Z Z :=
  graphics_key fs [0x1000; 0; 0; 0; 0; 0x2000] 0.

(** The cache after [GetShaders], the invalidation of the vertex program
    and a draw that needs it again. *)
Definition redrawn : Cache.VKPipelineCache (FixedPipelineState := Z) (RenderPassParams := Z) (Registry := unit) (ShaderIR := Z) :=
  Cache.after (Cache.CallGetGraphicsPipeline env (draw_key 1))
    (Cache.after (Cache.CallUnregister (shader_at 0 0x1000))
       (Cache.after (Cache.CallGetShaders env) fresh)).

End Sample.

(** ** Values of the C++ field types *)

Module Range.

Definition u64 (x : Z) : Prop := 0 ≤ x < 2 ^ 64.

Definition u32 (x : Z) : Prop := 0 ≤ x < 2 ^ 32.

(** A compute key whose fields hold values of their declared types:
    [GPUVAddr] is a [u64], the size and the workgroup components are
    [u32]. *)
Definition compute_key (k : Compute.ComputePipelineCacheKey) : Prop :=
  u64 (Compute.shader k)
  ∧ u32 (Compute.shared_memory_size k)
  ∧ u32 (Compute.workgroup_size k).1.1
  ∧ u32 (Compute.workgroup_size k).1.2
  ∧ u32 (Compute.workgroup_size k).2.

(** The bits of [shared_memory_size] that [(size >> 7) << 40] keeps in a
    64-bit word: bits 7 to 30. *)
Definition size_bucket (size : Z) : Z := (size / 2 ^ 7) mod 2 ^ 24.

(** A combiner that returns a [std::size_t] when its seed is one. *)
Definition keeps_words (combine : HashCombine) : Prop :=
  ∀ seed v, u64 seed → u64 (hash_combine seed v).

(** A combiner that, from one seed, sends different words to different
    results. *)
Definition separates_values (combine : HashCombine) : Prop :=
  ∀ seed v1 v2, u64 v1 → u64 v2 →
    hash_combine seed v1 = hash_combine seed v2 → v1 = v2.

End Range.

(** * Properties *)

(** ** Keys *)

Lemma array_eqb_eq (a b : list Z) : array_eqb a b = true ↔ a = b.
Proof.
  revert b. induction a as [|x a IH]; intros [|y b]; simpl; try (split; congruence).
  rewrite andb_true_iff, Z.eqb_eq, IH. split.
  - intros [-> ->]. reflexivity.
  - intros [= -> ->]. split; reflexivity.
Qed.

Section GraphicsKeyFacts.

Context `{KeyField Fixed} `{KeyField Pass}.

Lemma graphics_eqb_fields (a b : Graphics.GraphicsPipelineCacheKey Fixed Pass) :
  Graphics.eqb a b = true ↔
  Graphics.fixed_state a = Graphics.fixed_state b
  ∧ Graphics.shaders a = Graphics.shaders b
  ∧ Graphics.renderpass_params a = Graphics.renderpass_params b.
Proof.
  unfold Graphics.eqb.
  rewrite !andb_true_iff, !field_eqb_spec, array_eqb_eq. tauto.
Qed.

Lemma graphics_eqb_eq (a b : Graphics.GraphicsPipelineCacheKey Fixed Pass) :
  Graphics.eqb a b = true ↔ a = b.
Proof.
  rewrite graphics_eqb_fields. split.
  - destruct a, b; simpl. intros (-> & -> & ->). reflexivity.
  - intros ->. auto.
Qed.

Context {combine : HashCombine}.

Lemma hash_after_stages_prefix (h0 : Z) (addrs more : list Z) (n : nat) :
  (n ≤ length addrs)%nat →
  Graphics.hash_after_stages h0 (addrs ++ more) n
  = Graphics.hash_after_stages h0 addrs n.
Proof.
  induction n as [|n IH]; intros Hn; simpl; [reflexivity|].
  rewrite IH by lia. rewrite app_nth1 by lia. reflexivity.
Qed.

Lemma fold_combine_stages (addrs : list Z) (h0 : Z) :
  fold_left (λ hash shader, hash_combine hash shader) addrs h0
  = Graphics.hash_after_stages h0 addrs (length addrs).
Proof.
  induction addrs as [|x addrs IH] using rev_ind; [reflexivity|].
  rewrite fold_left_app, length_app, Nat.add_comm. simpl.
  rewrite IH, hash_after_stages_prefix by lia.
  rewrite app_nth2, Nat.sub_diag by lia. reflexivity.
Qed.

End GraphicsKeyFacts.

(** C1. Two graphics keys compare equal exactly when their fixed state,
    their whole array of shader addresses and their render-pass parameters
    are equal field by field; keys that compare equal have the same hash. *)
Theorem graphics_key_equality_and_hash
    `{KeyField Fixed} `{KeyField Pass} {combine : HashCombine}
    (a b : Graphics.GraphicsPipelineCacheKey Fixed Pass) :
  (Graphics.eqb a b = true ↔
     Graphics.fixed_state a = Graphics.fixed_state b
     ∧ Graphics.shaders a = Graphics.shaders b
     ∧ Graphics.renderpass_params a = Graphics.renderpass_params b)
  ∧ (Graphics.eqb a b = true → Graphics.Hash a = Graphics.Hash b).
Proof.
  split; [apply graphics_eqb_fields|].
  intros Heq. apply graphics_eqb_eq in Heq. rewrite Heq. reflexivity.
Qed.

Lemma graphics_key_equality_and_hash_witness :
  Graphics.eqb (Sample.graphics_key 7 [4096; 0; 0; 0; 0; 8192] 3)
               (Sample.graphics_key 7 [4096; 0; 0; 0; 0; 8192] 3) = true
  ∧ Graphics.Hash (combine := boost_hash_combine)
      (Sample.graphics_key 7 [4096; 0; 0; 0; 0; 8192] 3)
    = Graphics.Hash (combine := boost_hash_combine)
      (Sample.graphics_key 7 [4096; 0; 0; 0; 0; 8192] 3).
Proof.
  split; [reflexivity|].
  apply (graphics_key_equality_and_hash
           (Sample.graphics_key 7 [4096; 0; 0; 0; 0; 8192] 3)
           (Sample.graphics_key 7 [4096; 0; 0; 0; 0; 8192] 3)).
  reflexivity.
Defined.

(** C3. The graphics hash starts from the fixed-state hash, combines the
    shader addresses stage after stage and the render-pass hash last; it
    is a function of these three inputs alone, and exchanging two shader
    addresses can change it. *)
Theorem graphics_hash_fixed_order :
  (∀ `{KeyField Fixed} `{KeyField Pass} (combine : HashCombine)
     (k : Graphics.GraphicsPipelineCacheKey Fixed Pass),
     Graphics.Hash k = Graphics.Hash_in_order k)
  ∧ (∀ `{KeyField Fixed} `{KeyField Pass} (combine : HashCombine)
       (k1 k2 : Graphics.GraphicsPipelineCacheKey Fixed Pass),
       field_Hash (Graphics.fixed_state k1) = field_Hash (Graphics.fixed_state k2) →
       Graphics.shaders k1 = Graphics.shaders k2 →
       field_Hash (Graphics.renderpass_params k1)
       = field_Hash (Graphics.renderpass_params k2) →
       Graphics.Hash k1 = Graphics.Hash k2)
  ∧ (∃ k1 k2 : Graphics.GraphicsPipelineCacheKey Z Z,
       Graphics.fixed_state k1 = Graphics.fixed_state k2
       ∧ Graphics.renderpass_params k1 = Graphics.renderpass_params k2
       ∧ Graphics.shaders k1 ≡ₚ Graphics.shaders k2
       ∧ Graphics.Hash (combine := boost_hash_combine) k1
         ≠ Graphics.Hash (combine := boost_hash_combine) k2).
Proof.
  split; [|split].
  - intros. unfold Graphics.Hash, Graphics.Hash_in_order.
    rewrite fold_combine_stages. reflexivity.
  - intros * Hfs Hsh Hrp. unfold Graphics.Hash.
    rewrite Hfs, Hsh, Hrp. reflexivity.
  - exists (Sample.graphics_key 0 [1; 2; 0; 0; 0; 0] 0),
           (Sample.graphics_key 0 [2; 1; 0; 0; 0; 0] 0).
    repeat split.
    + simpl. apply perm_swap.
    + vm_compute. discriminate.
Qed.

Lemma compute_eqb_eq (a b : Compute.ComputePipelineCacheKey) :
  Compute.eqb a b = true ↔ a = b.
Proof.
  destruct a as [s m [[x y] z]], b as [s' m' [[x' y'] z']].
  unfold Compute.eqb, Compute.array3_eqb; simpl.
  rewrite !andb_true_iff, !Z.eqb_eq. split.
  - intros ((-> & ->) & (-> & ->) & ->). reflexivity.
  - intros [= -> -> -> -> ->]. auto.
Qed.

(** C4. Two compute keys compare equal exactly when the shader address,
    the shared-memory size and the three workgroup components are equal.
    The keys with workgroups (8,8,1) and (8,1,1) are unequal. Keys that
    differ in a field compare unequal whatever their hashes are, and keys
    with colliding hashes that compare unequal exist. *)
Theorem compute_key_equality_exact :
  (∀ s m x y z s' m' x' y' z',
     Compute.eqb (Sample.compute_key s m x y z) (Sample.compute_key s' m' x' y' z') = true
     ↔ s = s' ∧ m = m' ∧ x = x' ∧ y = y' ∧ z = z')
  ∧ Compute.eqb (Sample.compute_key 0x1000 256 8 8 1)
                (Sample.compute_key 0x1000 256 8 1 1) = false
  ∧ (∀ a b, Compute.Hash a = Compute.Hash b → a ≠ b → Compute.eqb a b = false)
  ∧ (∃ a b, Compute.Hash a = Compute.Hash b ∧ Compute.eqb a b = false).
Proof.
  split; [|split; [|split]].
  - intros. rewrite compute_eqb_eq. unfold Sample.compute_key. split.
    + intros [= -> -> -> -> ->]. auto.
    + intros (-> & -> & -> & -> & ->). reflexivity.
  - reflexivity.
  - intros a b _ Hne. destruct (Compute.eqb a b) eqn:E; [|reflexivity].
    apply compute_eqb_eq in E. contradiction.
  - exists (Sample.compute_key 0x1000 0 8 8 1), (Sample.compute_key 0x1000 100 8 8 1).
    split; reflexivity.
Qed.

Lemma compute_key_equality_exact_witness :
  Compute.eqb (Sample.compute_key 0x1000 1 8 8 1)
              (Sample.compute_key 0x1000 2 8 8 1) = false.
Proof.
  apply (proj1 (proj2 (proj2 compute_key_equality_exact))).
  - reflexivity.
  - discriminate.
Defined.

Lemma lxor_move_last (s c w0 w1 w2 : Z) :
  Z.lxor (Z.lxor (Z.lxor (Z.lxor s c) w0) w1) w2
  = Z.lxor (Z.lxor (Z.lxor (Z.lxor s w0) w1) w2) c.
Proof.
  apply Z.bits_inj'. intros n _. rewrite !Z.lxor_spec.
  destruct (Z.testbit s n), (Z.testbit c n), (Z.testbit w0 n),
    (Z.testbit w1 n), (Z.testbit w2 n); reflexivity.
Qed.

(** C9. The compute hash reads [shared_memory_size] only through
    [shared_memory_size >> 7]: two keys with the same shader address and
    workgroup size whose sizes agree after that shift have the same hash.
    The keys with sizes 0 and 100 are unequal and hash alike. Keys that
    compare equal hash alike. The size enters the hash as the single term
    [(shared_memory_size >> 7) << 40]. *)
Theorem compute_hash_ignores_low_size_bits :
  (∀ a b,
     Compute.shader a = Compute.shader b →
     Compute.workgroup_size a = Compute.workgroup_size b →
     Z.shiftr (Compute.shared_memory_size a) 7
     = Z.shiftr (Compute.shared_memory_size b) 7 →
     Compute.Hash a = Compute.Hash b)
  ∧ (∀ addr x y z,
       Compute.eqb (Sample.compute_key addr 0 x y z)
                   (Sample.compute_key addr 100 x y z) = false
       ∧ Compute.Hash (Sample.compute_key addr 0 x y z)
         = Compute.Hash (Sample.compute_key addr 100 x y z))
  ∧ (∀ a b, Compute.eqb a b = true → Compute.Hash a = Compute.Hash b)
  ∧ (∀ addr size x y z,
       Compute.Hash (Sample.compute_key addr size x y z)
       = Z.lxor (Compute.Hash (Sample.compute_key addr 0 x y z))
           (Word.shl (Word.shr size 7) 40)).
Proof.
  split; [|split; [|split]].
  - intros a b Hs Hw Hm. unfold Compute.Hash, Word.shr.
    rewrite Hs, Hw, Hm. reflexivity.
  - intros addr x y z. split.
    + unfold Compute.eqb; simpl. rewrite Z.eqb_refl. reflexivity.
    + reflexivity.
  - intros a b Heq. apply compute_eqb_eq in Heq. rewrite Heq. reflexivity.
  - intros addr size x y z. unfold Compute.Hash; simpl.
    change (Word.shl (Word.shr 0 7) 40) with 0.
    rewrite Z.lxor_0_r. apply lxor_move_last.
Qed.

Lemma compute_hash_ignores_low_size_bits_witness :
  Compute.Hash (Sample.compute_key 0x1000 128 8 8 1)
  = Compute.Hash (Sample.compute_key 0x1000 255 8 8 1).
Proof.
  apply (proj1 compute_hash_ignores_low_size_bits); reflexivity.
Defined.

Example compute_hash_sample :
  Compute.Hash (Sample.compute_key 0x1000 256 8 8 1) = 2199040561160.
Proof. reflexivity. Qed.

(** Bit 31 of the size is shifted past bit 63 and lost as well. *)
Example compute_hash_top_size_bit :
  Compute.Hash (Sample.compute_key 0x1000 (2 ^ 31) 8 8 1)
  = Compute.Hash (Sample.compute_key 0x1000 0 8 8 1).
Proof. reflexivity. Qed.

Example graphics_hash_sample :
  Graphics.Hash (combine := boost_hash_combine)
    (Sample.graphics_key 0 [1; 2; 0; 0; 0; 0] 0)
  ≠ Graphics.Hash (combine := boost_hash_combine)
    (Sample.graphics_key 0 [1; 2; 0; 0; 0; 0] 1).
Proof. vm_compute. discriminate. Qed.

(** ** Shader objects *)

(** C10. The size in bytes of a shader object is the number of 64-bit
    words of its bytecode times eight; the byte count of a [std::vector]
    fits in a [std::size_t]. *)
Theorem shader_size_in_bytes {Registry ShaderIR : Type}
    (s : Shader.CachedShader Registry ShaderIR) :
  Z.of_nat (length (Shader.program_code s)) * 8 < 2 ^ Word.size_t_bits →
  Shader.GetSizeInBytes s = Z.of_nat (length (Shader.program_code s)) * 8.
Proof.
  intros Hfit. unfold Shader.GetSizeInBytes, Word.to_size_t, Shader.sizeof_u64.
  apply Z.mod_small. lia.
Qed.

Lemma shader_size_in_bytes_witness :
  Shader.GetSizeInBytes
    {| Shader.gpu_addr := 0x1000;
       Shader.program_code := [1; 2; 3];
       Shader.registry := tt;
       Shader.shader_ir := tt;
       Shader.entries :=
         {| Descriptor.const_buffers := [];
            Descriptor.global_buffers := [];
            Descriptor.samplers := [];
            Descriptor.images := [] |} |} = 24.
Proof.
  apply (shader_size_in_bytes
           {| Shader.gpu_addr := 0x1000;
              Shader.program_code := [1; 2; 3];
              Shader.registry := tt;
              Shader.shader_ir := tt;
              Shader.entries :=
                {| Descriptor.const_buffers := [];
                   Descriptor.global_buffers := [];
                   Descriptor.samplers := [];
                   Descriptor.images := [] |} |}).
  reflexivity.
Defined.

(** ** Descriptor bindings *)

Section Enumeration.

Import Descriptor.

Lemma to_u32_range (x : Z) : 0 ≤ Word.to_u32 x < 2 ^ 32.
Proof. apply Z.mod_pos_bound. reflexivity. Qed.

Lemma consecutive_bindings_cons (b0 : Z) (n : nat) :
  0 ≤ b0 < 2 ^ 32 →
  consecutive_bindings b0 (S n)
  = b0 :: consecutive_bindings (Word.to_u32 (b0 + 1)) n.
Proof.
  intros Hb. unfold consecutive_bindings. simpl. f_equal.
  - unfold Word.to_u32. rewrite Z.add_0_r. apply Z.mod_small. exact Hb.
  - rewrite <- seq_shift, map_map. apply map_ext. intros i.
    unfold Word.to_u32. rewrite Zplus_mod_idemp_l. f_equal. lia.
Qed.

Lemma consecutive_bindings_app (b0 : Z) (n m : nat) :
  consecutive_bindings b0 (n + m)
  = consecutive_bindings b0 n
    ++ consecutive_bindings (Word.to_u32 (b0 + Z.of_nat n)) m.
Proof.
  unfold consecutive_bindings. rewrite seq_app, map_app. f_equal.
  simpl. replace (seq n m) with (map (Nat.add n) (seq 0 m)).
  2: { rewrite <- (Nat.add_0_r n) at 2. apply (fmap_add_seq n 0 m). }
  rewrite map_map. apply map_ext. intros i.
  unfold Word.to_u32. rewrite Zplus_mod_idemp_l. f_equal. lia.
Qed.

(** One category: the entries are appended in declaration order and take
    consecutive bindings. *)
Lemma AddEntries_appends (cat : Category) (container : list Resource) (cur : Cursor) :
  0 ≤ binding cur < 2 ^ 32 →
  ∃ new,
    template_entries (AddEntries cat container cur) = template_entries cur ++ new
    ∧ map shape new = map (λ r, (cat, res_count r)) container
    ∧ map dstBinding new = consecutive_bindings (binding cur) (length container)
    ∧ binding (AddEntries cat container cur)
      = Word.to_u32 (binding cur + Z.of_nat (length container)).
Proof.
  revert cur. induction container as [|r rest IH]; intros cur Hb.
  - exists []. simpl. rewrite app_nil_r, Z.add_0_r.
    repeat split. unfold Word.to_u32. symmetry. apply Z.mod_small. exact Hb.
  - destruct (IH (AddEntry cat cur r)) as (new & Hout & Hshape & Hbind & Hnext).
    { simpl. apply to_u32_range. }
    simpl in Hout, Hbind, Hnext.
    eexists (_ :: new). unfold AddEntries in *. cbn [fold_left length].
    rewrite Hout, <- app_assoc. repeat split.
    + simpl. f_equal. exact Hshape.
    + rewrite consecutive_bindings_cons by exact Hb.
      simpl. f_equal. exact Hbind.
    + rewrite Hnext. unfold Word.to_u32. rewrite Zplus_mod_idemp_l.
      f_equal. lia.
Qed.

End Enumeration.

(** C5. The enumeration appends one entry per declared resource: all
    constant buffers, then all global buffers, then all texture samples,
    then all storage images, each category in declaration order; the
    entries take consecutive binding indices starting at the incoming one,
    and the binding index that comes out has advanced by the number of
    resources. With two constant buffers, one global buffer and three
    texture samples, from binding 0, the indices are 0, 1, 2, 3, 4, 5. *)
Theorem descriptor_bindings_in_category_order :
  (∀ (entries : Descriptor.ShaderEntries) (cur : Descriptor.Cursor),
     0 ≤ Descriptor.binding cur < 2 ^ 32 →
     ∃ new,
       Descriptor.template_entries
         (Descriptor.FillDescriptorUpdateTemplateEntries entries cur)
       = Descriptor.template_entries cur ++ new
       ∧ map Descriptor.shape new = Descriptor.declared_in_order entries
       ∧ map Descriptor.dstBinding new
         = Descriptor.consecutive_bindings (Descriptor.binding cur)
             (Descriptor.resource_total entries)
       ∧ Descriptor.binding
           (Descriptor.FillDescriptorUpdateTemplateEntries entries cur)
         = Word.to_u32
             (Descriptor.binding cur
              + Z.of_nat (Descriptor.resource_total entries)))
  ∧ (∀ c1 c2 g1 t1 t2 t3 off,
       map (λ e, (Descriptor.descriptorType e, Descriptor.dstBinding e))
         (Descriptor.template_entries
            (Descriptor.FillDescriptorUpdateTemplateEntries
               {| Descriptor.const_buffers := [c1; c2];
                  Descriptor.global_buffers := [g1];
                  Descriptor.samplers := [t1; t2; t3];
                  Descriptor.images := [] |}
               {| Descriptor.binding := 0;
                  Descriptor.offset := off;
                  Descriptor.template_entries := [] |}))
       = [ (Descriptor.ConstBuffer, 0); (Descriptor.ConstBuffer, 1);
           (Descriptor.GlobalBuffer, 2);
           (Descriptor.TextureSample, 3); (Descriptor.TextureSample, 4);
           (Descriptor.TextureSample, 5) ]).
Proof.
  split; [|reflexivity].
  intros [cbs gbs smp img] cur Hb.
  unfold Descriptor.FillDescriptorUpdateTemplateEntries,
    Descriptor.declared_in_order, Descriptor.resource_total.
  cbn [Descriptor.const_buffers Descriptor.global_buffers
       Descriptor.samplers Descriptor.images].
  destruct (AddEntries_appends Descriptor.ConstBuffer cbs cur Hb)
    as (n1 & O1 & S1 & B1 & N1).
  set (cur1 := Descriptor.AddEntries Descriptor.ConstBuffer cbs cur) in *.
  destruct (AddEntries_appends Descriptor.GlobalBuffer gbs cur1)
    as (n2 & O2 & S2 & B2 & N2); [rewrite N1; apply to_u32_range|].
  set (cur2 := Descriptor.AddEntries Descriptor.GlobalBuffer gbs cur1) in *.
  destruct (AddEntries_appends Descriptor.TextureSample smp cur2)
    as (n3 & O3 & S3 & B3 & N3); [rewrite N2; apply to_u32_range|].
  set (cur3 := Descriptor.AddEntries Descriptor.TextureSample smp cur2) in *.
  destruct (AddEntries_appends Descriptor.StorageImage img cur3)
    as (n4 & O4 & S4 & B4 & N4); [rewrite N3; apply to_u32_range|].
  exists (n1 ++ n2 ++ n3 ++ n4).
  assert (E2 : Descriptor.binding cur2
               = Word.to_u32 (Descriptor.binding cur
                              + Z.of_nat (length cbs + length gbs))).
  { rewrite N2, N1. unfold Word.to_u32. rewrite Zplus_mod_idemp_l. f_equal. lia. }
  assert (E3 : Descriptor.binding cur3
               = Word.to_u32 (Descriptor.binding cur
                              + Z.of_nat (length cbs + length gbs + length smp))).
  { rewrite N3, E2. unfold Word.to_u32. rewrite Zplus_mod_idemp_l. f_equal. lia. }
  repeat split.
  - rewrite O4, O3, O2, O1, <- !app_assoc. reflexivity.
  - rewrite !map_app, S1, S2, S3, S4. reflexivity.
  - rewrite !map_app, B1, B2, B3, B4, N1, E2, E3.
    rewrite !consecutive_bindings_app, <- !app_assoc. reflexivity.
  - rewrite N4, E3. unfold Word.to_u32. rewrite Zplus_mod_idemp_l. f_equal. lia.
Qed.

Lemma descriptor_bindings_in_category_order_witness :
  ∃ new,
    Descriptor.template_entries
      (Descriptor.FillDescriptorUpdateTemplateEntries
         {| Descriptor.const_buffers :=
              [ {| Descriptor.res_index := 0; Descriptor.res_count := 1;
                   Descriptor.res_stride := 16 |} ];
            Descriptor.global_buffers := [];
            Descriptor.samplers :=
              [ {| Descriptor.res_index := 0; Descriptor.res_count := 4;
                   Descriptor.res_stride := 64 |} ];
            Descriptor.images := [] |}
         {| Descriptor.binding := 7; Descriptor.offset := 0;
            Descriptor.template_entries := [] |})
    = [] ++ new
    ∧ map Descriptor.dstBinding new = [7; 8].
Proof.
  destruct (proj1 descriptor_bindings_in_category_order
              {| Descriptor.const_buffers :=
                   [ {| Descriptor.res_index := 0; Descriptor.res_count := 1;
                        Descriptor.res_stride := 16 |} ];
                 Descriptor.global_buffers := [];
                 Descriptor.samplers :=
                   [ {| Descriptor.res_index := 0; Descriptor.res_count := 4;
                        Descriptor.res_stride := 64 |} ];
                 Descriptor.images := [] |}
              {| Descriptor.binding := 7; Descriptor.offset := 0;
                 Descriptor.template_entries := [] |})
    as (new & Hout & _ & Hbind & _).
  - simpl. lia.
  - exists new. split; [exact Hout | exact Hbind].
Defined.

(** ** The cache *)

Section CacheFacts.

Import Cache.

Context {FixedPipelineState RenderPassParams : Type}.
Context `{KeyField FixedPipelineState} `{KeyField RenderPassParams}.
Context {Registry ShaderIR : Type}.

Abbreviation GraphicsKey :=
  (Graphics.GraphicsPipelineCacheKey FixedPipelineState RenderPassParams).
Abbreviation Cache := (@VKPipelineCache FixedPipelineState RenderPassParams _ _ _ _ Registry ShaderIR).
Abbreviation Env := (@Collaborators FixedPipelineState RenderPassParams Registry ShaderIR).
Abbreviation ShaderPtr := (Shader.Shader Registry ShaderIR).

Lemma grows_refl (c : Cache) : grows c c.
Proof. split; auto. Qed.

Lemma grows_trans (c1 c2 c3 : Cache) : grows c1 c2 → grows c2 c3 → grows c1 c3.
Proof.
  intros [] []. split; try congruence; eauto. lia.
Qed.

Lemma GetOrCreate_cases (env : Env) (stage : Stage) (addr : Z) (c : Cache) :
  match shader_cache c !! addr with
  | Some sh => GetOrCreate env stage addr c = (Ok sh, c)
  | None =>
      match Decompile env (read_program env stage addr) stage (main_offset env stage) with
      | None => GetOrCreate env stage addr c = (Err DecompilationError, c)
      | Some (ir, reg, ents) =>
          ∃ sh,
            GetOrCreate env stage addr c = (Ok sh, register_shader sh c)
            ∧ Shader.shader_ref sh = next_object c
            ∧ Shader.gpu_addr (Shader.shader_obj sh) = addr
            ∧ Shader.shader_ir (Shader.shader_obj sh) = ir
            ∧ Shader.registry (Shader.shader_obj sh) = reg
            ∧ Shader.entries (Shader.shader_obj sh) = ents
      end
  end.
Proof.
  unfold GetOrCreate. destruct (shader_cache c !! addr); [reflexivity|].
  destruct (Decompile env _ stage _) as [[[ir reg] ents]|]; [|reflexivity].
  eexists. split; [reflexivity|]. simpl. auto.
Qed.

Lemma GetOrCreate_grows (env : Env) (stage : Stage) (addr : Z) (c : Cache) :
  grows c (GetOrCreate env stage addr c).2.
Proof.
  pose proof (GetOrCreate_cases env stage addr c) as Hc.
  destruct (shader_cache c !! addr) eqn:Hlook.
  - rewrite Hc. apply grows_refl.
  - destruct (Decompile env _ stage _) as [[[ir reg] ents]|].
    + destruct Hc as (sh & -> & _ & Haddr & _). simpl.
      split; simpl; auto.
      intros a sh' Ha. rewrite Haddr.
      rewrite lookup_insert_ne; [exact Ha|]. intros ->. congruence.
    + rewrite Hc. apply grows_refl.
Qed.

Lemma GetOrCreate_registered (env : Env) (stage : Stage) (addr : Z) (c c' : Cache) (sh : ShaderPtr) :
  GetOrCreate env stage addr c = (Ok sh, c') → shader_cache c' !! addr = Some sh.
Proof.
  pose proof (GetOrCreate_cases env stage addr c) as Hc.
  destruct (shader_cache c !! addr) eqn:Hlook.
  - rewrite Hc. intros [= <- <-]. exact Hlook.
  - destruct (Decompile env _ stage _) as [[[ir reg] ents]|].
    + destruct Hc as (sh' & -> & _ & Haddr & _). intros [= <- <-]. simpl.
      rewrite Haddr. apply lookup_insert_eq.
    + rewrite Hc. discriminate.
Qed.

Lemma GetOrCreate_coherent (env : Env) (stage : Stage) (addr : Z) (c : Cache) :
  coherent c → coherent (GetOrCreate env stage addr c).2.
Proof.
  intros Hco. pose proof (GetOrCreate_cases env stage addr c) as Hc.
  destruct (shader_cache c !! addr) eqn:Hlook; [rewrite Hc; exact Hco|].
  destruct (Decompile env _ stage _) as [[[ir reg] ents]|]; [|rewrite Hc; exact Hco].
  destruct Hc as (sh & -> & Href & Haddr & _). destruct Hco as [K A G F].
  split; simpl.
  - intros a sh'. rewrite Haddr, lookup_insert. case_decide.
    + intros [= <-]. congruence.
    + apply K.
  - intros a sh'. rewrite Haddr, lookup_insert. case_decide.
    + intros [= <-]. lia.
    + intros Ha. apply A in Ha. lia.
  - intros key p Hp. apply G in Hp. lia.
  - exact F.
Qed.

Lemma bind_ok_inv {A B : Type} (m : M A) (k : A → M B) (c c' : Cache) (b : B) :
  bind m k c = (Ok b, c') →
  ∃ a c1, m c = (Ok a, c1) ∧ k a c1 = (Ok b, c').
Proof.
  unfold bind. destruct (m c) as [[a|e] c1]; [eauto | discriminate].
Qed.

Lemma resolve_stages_grows (env : Env) (addrs : list (option Z)) (slot : nat) (c : Cache) :
  grows c (resolve_stages env slot addrs c).2.
Proof.
  revert slot c. induction addrs as [|[addr|] rest IH]; intros slot c; simpl.
  - apply grows_refl.
  - unfold bind at 1.
    pose proof (GetOrCreate_grows env (GraphicsStage slot) addr c) as Hg.
    destruct (GetOrCreate env (GraphicsStage slot) addr c) as [[sh|e] c1];
      simpl in Hg; [|exact Hg].
    unfold bind. pose proof (IH (S slot) c1) as Hr.
    destruct (resolve_stages env (S slot) rest c1) as [[shs|e] c2];
      simpl in *; eapply grows_trans; eauto.
  - unfold bind. pose proof (IH (S slot) c) as Hr.
    destruct (resolve_stages env (S slot) rest c) as [[shs|e] c2]; exact Hr.
Qed.

Lemma resolve_stages_coherent (env : Env) (addrs : list (option Z)) (slot : nat) (c : Cache) :
  coherent c → coherent (resolve_stages env slot addrs c).2.
Proof.
  revert slot c. induction addrs as [|[addr|] rest IH]; intros slot c Hco; simpl.
  - exact Hco.
  - unfold bind at 1.
    pose proof (GetOrCreate_coherent env (GraphicsStage slot) addr c Hco) as Hg.
    destruct (GetOrCreate env (GraphicsStage slot) addr c) as [[sh|e] c1];
      simpl in Hg; [|exact Hg].
    unfold bind. pose proof (IH (S slot) c1 Hg) as Hr.
    destruct (resolve_stages env (S slot) rest c1) as [[shs|e] c2]; exact Hr.
  - unfold bind. pose proof (IH (S slot) c Hco) as Hr.
    destruct (resolve_stages env (S slot) rest c) as [[shs|e] c2]; exact Hr.
Qed.

Lemma resolved_in_grows (c c' : Cache) (slot : option Z) (osh : option ShaderPtr) :
  grows c c' → resolved_in c slot osh → resolved_in c' slot osh.
Proof.
  intros Hg. destruct slot, osh; simpl; auto. apply (grows_shaders _ _ Hg).
Qed.

(** After a successful resolution every slot is resolved in the resulting
    cache. *)
Lemma resolve_stages_resolved (env : Env) (addrs : list (option Z)) (slot : nat)
    (c c' : Cache) (shs : list (option ShaderPtr)) :
  resolve_stages env slot addrs c = (Ok shs, c') →
  Forall2 (resolved_in c') addrs shs.
Proof.
  revert slot c shs. induction addrs as [|[addr|] rest IH]; intros slot c shs; simpl.
  - intros [= <- <-]. constructor.
  - intros Hb. apply bind_ok_inv in Hb as (sh & c1 & Hget & Hb).
    apply bind_ok_inv in Hb as (shs' & c2 & Hrest & Hret).
    injection Hret as <- <-.
    constructor; [|eapply IH; exact Hrest].
    simpl. pose proof (resolve_stages_grows env rest (S slot) c1) as Hg.
    rewrite Hrest in Hg. apply (grows_shaders _ _ Hg).
    eapply GetOrCreate_registered. exact Hget.
  - intros Hb. apply bind_ok_inv in Hb as (shs' & c2 & Hrest & Hret).
    injection Hret as <- <-.
    constructor; [exact I | eapply IH; exact Hrest].
Qed.

(** Slots that are resolved already are answered from the cache: no
    collaborator is consulted and the cache does not change. *)
Lemma resolve_stages_hit (env : Env) (addrs : list (option Z)) (slot : nat)
    (c : Cache) (shs : list (option ShaderPtr)) :
  Forall2 (resolved_in c) addrs shs →
  resolve_stages env slot addrs c = (Ok shs, c).
Proof.
  intros Hres. revert slot.
  induction Hres as [|oa osh rest shs Hone _ IH]; intros slot; [reflexivity|].
  destruct oa as [addr|], osh as [sh|]; simpl in Hone; try contradiction; simpl.
  - unfold bind at 1. pose proof (GetOrCreate_cases env (GraphicsStage slot) addr c) as Hc.
    rewrite Hone in Hc. rewrite Hc. unfold bind. rewrite IH. reflexivity.
  - unfold bind. rewrite IH. reflexivity.
Qed.

(** *** The graphics path, case by case *)

Lemma graphics_miss_cases (env : Env) (key : GraphicsKey) (c : Cache) :
  match resolve_stages env 0 (referenced_programs key) c with
  | (Err e, c1) => graphics_miss env key c = (Err e, c1)
  | (Ok shs, c1) =>
      if build_graphics env key shs (binding_layout shs)
      then graphics_miss env key c
           = (Ok (next_object c1),
              set_last_graphics key (next_object c1)
                (emplace_graphics key (note_graphics_request key c1)))
      else graphics_miss env key c
           = (Err PipelineBuildError, note_graphics_request key c1)
  end.
Proof.
  unfold graphics_miss, bind.
  destruct (resolve_stages env 0 (referenced_programs key) c) as [[shs|e] c1];
    [|reflexivity].
  unfold construct_graphics.
  destruct (build_graphics env key shs (binding_layout shs)); reflexivity.
Qed.

Lemma GetGraphicsPipeline_present (env : Env) (key : GraphicsKey) (c : Cache) (p : nat) :
  coherent c → graphics_cache c !! key = Some p →
  GetGraphicsPipeline env key c = (Ok p, c)
  ∨ GetGraphicsPipeline env key c = (Ok p, set_last_graphics key p c).
Proof.
  intros Hco Hin. unfold GetGraphicsPipeline.
  destruct (Graphics.eqb key (last_graphics_key c)) eqn:Heq.
  - destruct (last_graphics_pipeline c) as [q|] eqn:Hlast.
    + apply graphics_eqb_eq in Heq. apply (fast_path_in_map _ Hco) in Hlast.
      rewrite <- Heq in Hlast. left. congruence.
    + rewrite Hin. right. reflexivity.
  - rewrite Hin. right. reflexivity.
Qed.

Lemma GetGraphicsPipeline_absent (env : Env) (key : GraphicsKey) (c : Cache) :
  coherent c → graphics_cache c !! key = None →
  GetGraphicsPipeline env key c = graphics_miss env key c.
Proof.
  intros Hco Hout. unfold GetGraphicsPipeline.
  destruct (Graphics.eqb key (last_graphics_key c)) eqn:Heq.
  - destruct (last_graphics_pipeline c) as [q|] eqn:Hlast.
    + apply graphics_eqb_eq in Heq. apply (fast_path_in_map _ Hco) in Hlast.
      rewrite <- Heq in Hlast. congruence.
    + rewrite Hout. reflexivity.
  - rewrite Hout. reflexivity.
Qed.

(** *** Every reachable cache is coherent *)

Lemma coherent_init (default_key : GraphicsKey) : coherent (init default_key : Cache).
Proof.
  split; simpl; intros *; try rewrite lookup_empty; discriminate.
Qed.

Lemma coherent_set_last_shaders (shs : list (option ShaderPtr)) (c : Cache) :
  coherent c → coherent (set_last_shaders shs c).
Proof. intros [K A G F]. split; simpl; assumption. Qed.

Lemma coherent_note_request (key : GraphicsKey) (c : Cache) :
  coherent c → coherent (note_graphics_request key c).
Proof. intros [K A G F]. split; simpl; assumption. Qed.

Lemma coherent_set_last_graphics (key : GraphicsKey) (p : nat) (c : Cache) :
  coherent c → graphics_cache c !! key = Some p →
  coherent (set_last_graphics key p c).
Proof.
  intros [K A G F] Hin. split; simpl; try assumption.
  intros q [= <-]. exact Hin.
Qed.

Lemma coherent_emplace_graphics (key : GraphicsKey) (c : Cache) :
  coherent c →
  coherent (set_last_graphics key (next_object c) (emplace_graphics key c)).
Proof.
  intros [K A G F]. split; simpl.
  - exact K.
  - intros a sh Ha. apply A in Ha. lia.
  - intros k p. rewrite lookup_insert. case_decide.
    + intros [= <-]. lia.
    + intros Hp. apply G in Hp. lia.
  - intros q [= <-]. apply lookup_insert_eq.
Qed.

Lemma coherent_emplace_compute (key : Compute.ComputePipelineCacheKey) (c : Cache) :
  coherent c → coherent (emplace_compute key c).
Proof.
  intros [K A G F]. split; simpl.
  - exact K.
  - intros a sh Ha. apply A in Ha. lia.
  - intros k p Hp. apply G in Hp. lia.
  - exact F.
Qed.

Lemma coherent_Unregister (sh : ShaderPtr) (c : Cache) :
  coherent c → coherent (Unregister sh c).
Proof.
  intros [K A G F]. split; simpl; try assumption.
  - intros a s Ha. apply lookup_delete_Some in Ha as [_ Ha]. eauto.
  - intros a s Ha. apply lookup_delete_Some in Ha as [_ Ha]. eauto.
Qed.

Lemma coherent_graphics_miss (env : Env) (key : GraphicsKey) (c : Cache) :
  coherent c → coherent (graphics_miss env key c).2.
Proof.
  intros Hco. pose proof (graphics_miss_cases env key c) as Hm.
  pose proof (resolve_stages_coherent env (referenced_programs key) 0 c Hco) as Hr.
  destruct (resolve_stages env 0 (referenced_programs key) c) as [[shs|e] c1];
    simpl in Hr; [|rewrite Hm; exact Hr].
  destruct (build_graphics env key shs (binding_layout shs)); rewrite Hm; simpl.
  - apply (coherent_emplace_graphics key (note_graphics_request key c1)).
    apply coherent_note_request. exact Hr.
  - apply coherent_note_request. exact Hr.
Qed.

Lemma coherent_after (r : Request) (c : Cache) : coherent c → coherent (after r c).
Proof.
  intros Hco. destruct r as [env|env key|env key|sh]; simpl.
  - unfold GetShaders, bind.
    pose proof (resolve_stages_coherent env (bound_programs env) 0 c Hco) as Hr.
    destruct (resolve_stages env 0 (bound_programs env) c) as [[shs|e] c1];
      simpl in *; [apply coherent_set_last_shaders|]; exact Hr.
  - destruct (graphics_cache c !! key) as [p|] eqn:Hlook.
    + destruct (GetGraphicsPipeline_present env key c p Hco Hlook) as [-> | ->];
        simpl; [exact Hco | apply coherent_set_last_graphics; assumption].
    + rewrite GetGraphicsPipeline_absent by assumption.
      apply coherent_graphics_miss. exact Hco.
  - unfold GetComputePipeline.
    destruct (compute_cache c !! key); [exact Hco|]. unfold bind.
    pose proof (GetOrCreate_coherent env ComputeStage (Compute.shader key) c Hco) as Hg.
    destruct (GetOrCreate env ComputeStage (Compute.shader key) c) as [[sh|e] c1];
      simpl in Hg; [|exact Hg].
    unfold construct_compute.
    destruct (build_compute env key sh _); simpl;
      [apply coherent_emplace_compute|]; exact Hg.
  - apply coherent_Unregister. exact Hco.
Qed.

Lemma reachable_coherent (c : Cache) : reachable c → coherent c.
Proof.
  induction 1 as [k0|r c _ IH]; [apply coherent_init | apply coherent_after, IH].
Qed.

(** *** Entries of the graphics map are kept *)

Lemma resolve_stages_error (env : Env) (addrs : list (option Z)) (slot : nat)
    (c c' : Cache) (e : Error) :
  resolve_stages env slot addrs c = (Err e, c') → e = DecompilationError.
Proof.
  revert slot c. induction addrs as [|[addr|] rest IH]; intros slot c; simpl.
  - discriminate.
  - unfold bind at 1.
    pose proof (GetOrCreate_cases env (GraphicsStage slot) addr c) as Hc.
    destruct (GetOrCreate env (GraphicsStage slot) addr c) as [[sh|e'] c1] eqn:Hget.
    + unfold bind.
      destruct (resolve_stages env (S slot) rest c1) as [[shs|e'] c2] eqn:Hrest;
        [discriminate|]. intros [= <- <-]. eapply IH. exact Hrest.
    + intros [= <- <-].
      destruct (shader_cache c !! addr); [discriminate|].
      destruct (Decompile env _ _ _) as [[[ir reg] ents]|].
      * destruct Hc as (sh & Hc & _). discriminate.
      * congruence.
  - unfold bind.
    destruct (resolve_stages env (S slot) rest c) as [[shs|e'] c2] eqn:Hrest;
      [discriminate|]. intros [= <- <-]. eapply IH. exact Hrest.
Qed.

(** What a miss does, read off its result. *)
Lemma graphics_miss_result (env : Env) (key : GraphicsKey) (c c' : Cache) (r : Result nat) :
  graphics_miss env key c = (r, c') →
  ∃ c1, grows c c1 ∧
    match r with
    | Ok p =>
        p = next_object c1
        ∧ c' = set_last_graphics key p
                 (emplace_graphics key (note_graphics_request key c1))
    | Err DecompilationError => c' = c1
    | Err PipelineBuildError =>
        ∃ shs,
          resolve_stages env 0 (referenced_programs key) c = (Ok shs, c1)
          ∧ build_graphics env key shs (binding_layout shs) = false
          ∧ c' = note_graphics_request key c1
    end.
Proof.
  intros Hm. pose proof (graphics_miss_cases env key c) as Hc.
  pose proof (resolve_stages_grows env (referenced_programs key) 0 c) as Hg.
  destruct (resolve_stages env 0 (referenced_programs key) c) as [[shs|e] c1] eqn:Hr;
    simpl in Hg; exists c1; (split; [exact Hg|]).
  - destruct (build_graphics env key shs (binding_layout shs)) eqn:Hb;
      rewrite Hc in Hm; injection Hm as <- <-; eauto.
  - rewrite Hc in Hm. injection Hm as <- <-.
    apply resolve_stages_error in Hr. subst e. reflexivity.
Qed.

Lemma GetGraphicsPipeline_created (env : Env) (key : GraphicsKey) (c c' : Cache) (p : nat) :
  coherent c → graphics_cache c !! key = None →
  GetGraphicsPipeline env key c = (Ok p, c') →
  graphics_cache c' = <[key := p]> (graphics_cache c)
  ∧ (next_object c ≤ p)%nat ∧ next_object c' = S p.
Proof.
  intros Hco Hout. rewrite GetGraphicsPipeline_absent by assumption.
  intros Hm. apply graphics_miss_result in Hm as (c1 & Hg & -> & ->). simpl.
  rewrite (grows_graphics _ _ Hg). repeat split. apply (grows_next _ _ Hg).
Qed.

Lemma GetGraphicsPipeline_cached (env : Env) (key : GraphicsKey) (c c' : Cache) (p : nat) :
  coherent c → GetGraphicsPipeline env key c = (Ok p, c') →
  graphics_cache c' !! key = Some p.
Proof.
  intros Hco Hget. destruct (graphics_cache c !! key) as [q|] eqn:Hlook.
  - destruct (GetGraphicsPipeline_present env key c q Hco Hlook) as [E|E];
      rewrite E in Hget; injection Hget as <- <-; exact Hlook.
  - destruct (GetGraphicsPipeline_created env key c c' p Hco Hlook Hget) as (-> & _).
    apply lookup_insert_eq.
Qed.

Lemma graphics_entry_kept (r : Request) (c : Cache) (key : GraphicsKey) (p : nat) :
  coherent c → graphics_cache c !! key = Some p →
  graphics_cache (after r c) !! key = Some p.
Proof.
  intros Hco Hin. destruct r as [env|env key'|env key'|sh]; simpl.
  - unfold GetShaders, bind.
    pose proof (resolve_stages_grows env (bound_programs env) 0 c) as Hg.
    destruct (resolve_stages env 0 (bound_programs env) c) as [[shs|e] c1];
      simpl in *; rewrite (grows_graphics _ _ Hg); exact Hin.
  - destruct (graphics_cache c !! key') as [q|] eqn:Hlook.
    + destruct (GetGraphicsPipeline_present env key' c q Hco Hlook) as [-> | ->];
        exact Hin.
    + rewrite GetGraphicsPipeline_absent by assumption.
      destruct (graphics_miss env key' c) as [res c'] eqn:Hm.
      apply graphics_miss_result in Hm as (c1 & Hg & Hres). simpl.
      destruct res as [q|[|]].
      * destruct Hres as (-> & ->). simpl. rewrite (grows_graphics _ _ Hg).
        rewrite lookup_insert_ne; [exact Hin|]. intros ->. congruence.
      * subst c'. rewrite (grows_graphics _ _ Hg). exact Hin.
      * destruct Hres as (shs & _ & _ & ->). simpl.
        rewrite (grows_graphics _ _ Hg). exact Hin.
  - unfold GetComputePipeline.
    destruct (compute_cache c !! key'); [exact Hin|]. unfold bind.
    pose proof (GetOrCreate_grows env ComputeStage (Compute.shader key') c) as Hg.
    destruct (GetOrCreate env ComputeStage (Compute.shader key') c) as [[sh|e] c1];
      simpl in Hg; [|simpl; rewrite (grows_graphics _ _ Hg); exact Hin].
    unfold construct_compute.
    destruct (build_compute env key' sh _); simpl;
      rewrite (grows_graphics _ _ Hg); exact Hin.
  - exact Hin.
Qed.

Lemma coherent_after_all (rs : list Request) (c : Cache) :
  coherent c → coherent (after_all rs c).
Proof.
  revert c. induction rs as [|r rs IH]; intros c Hco; simpl; [exact Hco|].
  apply IH, coherent_after, Hco.
Qed.

Lemma graphics_entry_kept_all (rs : list Request) (c : Cache) (key : GraphicsKey) (p : nat) :
  coherent c → graphics_cache c !! key = Some p →
  graphics_cache (after_all rs c) !! key = Some p.
Proof.
  revert c. induction rs as [|r rs IH]; intros c Hco Hin; simpl; [exact Hin|].
  apply IH; [apply coherent_after, Hco | apply graphics_entry_kept; assumption].
Qed.

Lemma GetGraphicsPipeline_coherent (env : Env) (key : GraphicsKey) (c c' : Cache) (r : Result nat) :
  coherent c → GetGraphicsPipeline env key c = (r, c') → coherent c'.
Proof.
  intros Hco Hget.
  replace c' with (after (CallGetGraphicsPipeline env key) c)
    by (simpl; rewrite Hget; reflexivity).
  apply coherent_after, Hco.
Qed.

(** C2. Once [GetGraphicsPipeline] has returned a pipeline object for a
    key, every later call for that key on the same cache returns that very
    object, whatever was called in between. On a fresh cache, after calls
    for [k1], for a different [k2] and for [k1] again, the third call
    returns the object of the first and the graphics map has exactly two
    entries. *)
Theorem graphics_pipeline_instance_is_stable :
  (∀ (c c' : Cache) (env env' : Env) (key : GraphicsKey) (p : nat) (rs : list Request),
     reachable c →
     GetGraphicsPipeline env key c = (Ok p, c') →
     (GetGraphicsPipeline env' key (after_all rs c')).1 = Ok p)
  ∧ (∀ (k0 k1 k2 : GraphicsKey) (env1 env2 env3 : Env) (p1 p2 : nat) (c1 c2 : Cache),
       k1 ≠ k2 →
       GetGraphicsPipeline env1 k1 (init k0) = (Ok p1, c1) →
       GetGraphicsPipeline env2 k2 c1 = (Ok p2, c2) →
       ∃ c3,
         GetGraphicsPipeline env3 k1 c2 = (Ok p1, c3)
         ∧ size (graphics_cache c3) = 2%nat
         ∧ p1 ≠ p2).
Proof.
  split.
  - intros c c' env env' key p rs Hreach Hget.
    apply reachable_coherent in Hreach as Hco.
    pose proof (GetGraphicsPipeline_coherent env key c c' _ Hco Hget) as Hco'.
    pose proof (GetGraphicsPipeline_cached env key c c' p Hco Hget) as Hin.
    pose proof (coherent_after_all rs c' Hco') as Hco''.
    pose proof (graphics_entry_kept_all rs c' key p Hco' Hin) as Hin''.
    destruct (GetGraphicsPipeline_present env' key _ p Hco'' Hin'') as [-> | ->];
      reflexivity.
  - intros k0 k1 k2 env1 env2 env3 p1 p2 c1 c2 Hne H1' H2'.
    pose proof (coherent_init k0) as Hco0.
    pose proof (GetGraphicsPipeline_coherent env1 k1 _ c1 _ Hco0 H1') as Hco1.
    pose proof (GetGraphicsPipeline_coherent env2 k2 c1 c2 _ Hco1 H2') as Hco2.
    destruct (GetGraphicsPipeline_created env1 k1 _ c1 p1 Hco0 (lookup_empty _) H1')
      as (Hmap1 & _ & Hnext1).
    simpl in Hmap1.
    assert (Hout2 : graphics_cache c1 !! k2 = None).
    { rewrite Hmap1, lookup_insert_ne by exact Hne. apply lookup_empty. }
    destruct (GetGraphicsPipeline_created env2 k2 c1 c2 p2 Hco1 Hout2 H2')
      as (Hmap2 & Hle2 & _).
    assert (Hin : graphics_cache c2 !! k1 = Some p1).
    { rewrite Hmap2, lookup_insert_ne by congruence.
      rewrite Hmap1. apply lookup_insert_eq. }
    assert (Hsize : size (graphics_cache c2) = 2%nat).
    { rewrite Hmap2, map_size_insert_None by exact Hout2.
      rewrite Hmap1, map_size_insert_None by apply lookup_empty.
      rewrite map_size_empty. reflexivity. }
    destruct (GetGraphicsPipeline_present env3 k1 c2 p1 Hco2 Hin) as [E|E];
      eexists; (split; [exact E|]); simpl; (split; [exact Hsize | lia]).
Qed.

Lemma resolved_in_same_shaders (c c' : Cache) (addrs : list (option Z))
    (shs : list (option ShaderPtr)) :
  shader_cache c' = shader_cache c →
  Forall2 (resolved_in c) addrs shs → Forall2 (resolved_in c') addrs shs.
Proof.
  intros Hsame Hall. eapply Forall2_impl; [exact Hall|].
  intros [addr|] [sh|]; simpl; auto. rewrite Hsame. auto.
Qed.

(** C6. When the construction of a graphics pipeline fails with a
    PipelineBuildError, the graphics map, the compute map and the fast-path
    slot are what they were before the request, and the key has no entry.
    A later request for the same key reaches the builder again: the builder
    receives one more request for that key, and its answer decides whether a
    new pipeline is inserted or the error is raised again. *)
Theorem failed_construction_is_not_cached
    (c c' : Cache) (env : Env) (key : GraphicsKey) :
  reachable c →
  GetGraphicsPipeline env key c = (Err PipelineBuildError, c') →
  graphics_cache c' = graphics_cache c
  ∧ graphics_cache c' !! key = None
  ∧ compute_cache c' = compute_cache c
  ∧ last_graphics_key c' = last_graphics_key c
  ∧ last_graphics_pipeline c' = last_graphics_pipeline c
  ∧ ∀ env' : Env, ∃ shs,
      GetGraphicsPipeline env' key c' = construct_graphics env' key shs c'
      ∧ graphics_requests (GetGraphicsPipeline env' key c').2
        = graphics_requests c' ++ [key]
      ∧ (build_graphics env' key shs (binding_layout shs) = true →
         (GetGraphicsPipeline env' key c').1 = Ok (next_object c')
         ∧ graphics_cache (GetGraphicsPipeline env' key c').2 !! key
           = Some (next_object c'))
      ∧ (build_graphics env' key shs (binding_layout shs) = false →
         (GetGraphicsPipeline env' key c').1 = Err PipelineBuildError
         ∧ graphics_cache (GetGraphicsPipeline env' key c').2 = graphics_cache c').
Proof.
  intros Hreach Hget. apply reachable_coherent in Hreach as Hco.
  pose proof (GetGraphicsPipeline_coherent env key c c' _ Hco Hget) as Hco'.
  destruct (graphics_cache c !! key) as [q|] eqn:Hlook.
  { destruct (GetGraphicsPipeline_present env key c q Hco Hlook) as [E|E];
      rewrite E in Hget; discriminate. }
  rewrite GetGraphicsPipeline_absent in Hget by assumption.
  apply graphics_miss_result in Hget as (c1 & Hg & shs & Hres & Hfail & ->).
  simpl. rewrite (grows_graphics _ _ Hg), (grows_compute _ _ Hg),
    (grows_key _ _ Hg), (grows_pipeline _ _ Hg).
  repeat split; try assumption.
  intros env'. exists shs.
  assert (Hmiss : GetGraphicsPipeline env' key (note_graphics_request key c1)
                  = construct_graphics env' key shs (note_graphics_request key c1)).
  { rewrite GetGraphicsPipeline_absent;
      [|exact Hco' | simpl; rewrite (grows_graphics _ _ Hg); exact Hlook].
    unfold graphics_miss, bind.
    rewrite (resolve_stages_hit env' (referenced_programs key) 0 _ shs);
      [reflexivity|].
    apply (resolved_in_same_shaders c1); [reflexivity|].
    eapply resolve_stages_resolved. exact Hres. }
  rewrite Hmiss. unfold construct_graphics.
  split; [reflexivity|].
  destruct (build_graphics env' key shs (binding_layout shs)); simpl.
  - split; [reflexivity|]. split; [|discriminate].
    intros _. split; [reflexivity | apply lookup_insert_eq].
  - split; [reflexivity|]. split; [discriminate|].
    intros _. split; [reflexivity | apply (grows_graphics _ _ Hg)].
Qed.

(** C7. Unregistering a registered shader removes it from the Shader
    Object Cache and leaves the graphics map, the compute map and the
    fast-path slot as they are. The next lookup of its address is a miss:
    when it succeeds, the object it returns comes from a new run of the
    decompiler and is a different instance. A key that had a pipeline still
    resolves to that pipeline. *)
Theorem unregister_forgets_the_shader_only
    (c : Cache) (addr : Z) (sh : ShaderPtr) :
  reachable c →
  shader_cache c !! addr = Some sh →
  shader_cache (Unregister sh c) !! addr = None
  ∧ graphics_cache (Unregister sh c) = graphics_cache c
  ∧ compute_cache (Unregister sh c) = compute_cache c
  ∧ last_graphics_key (Unregister sh c) = last_graphics_key c
  ∧ last_graphics_pipeline (Unregister sh c) = last_graphics_pipeline c
  ∧ (∀ (env : Env) (stage : Stage) (sh' : ShaderPtr) (c' : Cache),
       GetOrCreate env stage addr (Unregister sh c) = (Ok sh', c') →
       Shader.shader_ref sh' ≠ Shader.shader_ref sh
       ∧ Decompile env (read_program env stage addr) stage (main_offset env stage)
         = Some (Shader.shader_ir (Shader.shader_obj sh'),
                 Shader.registry (Shader.shader_obj sh'),
                 Shader.entries (Shader.shader_obj sh'))
       ∧ shader_cache c' !! addr = Some sh')
  ∧ (∀ (env : Env) (key : GraphicsKey) (p : nat),
       graphics_cache c !! key = Some p →
       (GetGraphicsPipeline env key (Unregister sh c)).1 = Ok p).
Proof.
  intros Hreach Hin. apply reachable_coherent in Hreach as Hco.
  pose proof (shader_keyed _ Hco _ _ Hin) as Haddr.
  pose proof (shader_allocated _ Hco _ _ Hin) as Hold.
  assert (Hgone : shader_cache (Unregister sh c) !! addr = None).
  { simpl. rewrite Haddr. apply lookup_delete_eq. }
  split; [exact Hgone|]. do 4 (split; [reflexivity|]). split.
  - intros env stage sh' c' Hget.
    pose proof (GetOrCreate_registered env stage addr _ c' sh' Hget) as Hreg.
    pose proof (GetOrCreate_cases env stage addr (Unregister sh c)) as Hc.
    rewrite Hgone in Hc.
    destruct (Decompile env _ stage _) as [[[ir reg] ents]|];
      [|rewrite Hc in Hget; discriminate].
    destruct Hc as (s & Hs & Href & _ & Hir & Hrg & Hents).
    rewrite Hs in Hget. injection Hget as <- <-.
    split; [rewrite Href; simpl; lia|].
    split; [rewrite Hir, Hrg, Hents; reflexivity | exact Hreg].
  - intros env key p Hp.
    destruct (GetGraphicsPipeline_present env key (Unregister sh c) p) as [-> | ->];
      [apply coherent_Unregister, Hco | exact Hp | reflexivity | reflexivity].
Qed.

(** *** Objects referenced by [last_shaders] *)

Lemma extends_refl (c : Cache) : extends c c.
Proof. split; auto. Qed.

Lemma extends_trans (c1 c2 c3 : Cache) : extends c1 c2 → extends c2 c3 → extends c1 c3.
Proof.
  intros [L1 N1 S1] [L2 N2 S2]. split; [congruence | lia |].
  intros addr sh Hin. destruct (S2 _ _ Hin) as [Hin2|Hnew]; [|right; lia].
  destruct (S1 _ _ Hin2) as [Hin1|Hnew]; [left; exact Hin1 | right; exact Hnew].
Qed.

Lemma GetOrCreate_extends (env : Env) (stage : Stage) (addr : Z) (c : Cache) :
  extends c (GetOrCreate env stage addr c).2.
Proof.
  pose proof (GetOrCreate_cases env stage addr c) as Hc.
  destruct (shader_cache c !! addr) eqn:Hlook; [rewrite Hc; apply extends_refl|].
  destruct (Decompile env _ stage _) as [[[ir reg] ents]|];
    [|rewrite Hc; apply extends_refl].
  destruct Hc as (sh & -> & Href & Haddr & _). split; simpl; [reflexivity | lia |].
  intros a sh'. rewrite Haddr, lookup_insert. case_decide.
  - intros [= <-]. right. lia.
  - intros Ha. left. exact Ha.
Qed.

Lemma resolve_stages_extends (env : Env) (addrs : list (option Z)) (slot : nat) (c : Cache) :
  extends c (resolve_stages env slot addrs c).2.
Proof.
  revert slot c. induction addrs as [|[addr|] rest IH]; intros slot c; simpl.
  - apply extends_refl.
  - unfold bind at 1.
    pose proof (GetOrCreate_extends env (GraphicsStage slot) addr c) as Hg.
    destruct (GetOrCreate env (GraphicsStage slot) addr c) as [[sh|e] c1];
      simpl in Hg; [|exact Hg].
    unfold bind. pose proof (IH (S slot) c1) as Hr.
    destruct (resolve_stages env (S slot) rest c1) as [[shs|e] c2];
      simpl in *; eapply extends_trans; eauto.
  - unfold bind. pose proof (IH (S slot) c) as Hr.
    destruct (resolve_stages env (S slot) rest c) as [[shs|e] c2]; exact Hr.
Qed.

Lemma tracked_extends (c c' : Cache) : tracked c → extends c c' → tracked c'.
Proof.
  intros [A O U] [L N S]. split.
  - intros sh Hin. rewrite L in Hin. apply A in Hin. lia.
  - intros sh sh' Hin Hreg. rewrite L in Hin.
    destruct (S _ _ Hreg) as [Hold|Hnew]; [eapply O; eassumption|].
    right. apply A in Hin. lia.
  - intros sh1 sh2 H1' H2'. rewrite L in H1', H2'. apply U; assumption.
Qed.

Lemma resolved_member (c : Cache) (addrs : list (option Z))
    (shs : list (option ShaderPtr)) (sh : ShaderPtr) :
  Forall2 (resolved_in c) addrs shs → Some sh ∈ shs → registered c sh.
Proof.
  induction 1 as [|oa osh rest shs Hone _ IH]; intros Hin.
  - apply elem_of_nil in Hin. contradiction.
  - apply elem_of_cons in Hin as [<-|Hin]; [|apply IH, Hin].
    destruct oa as [addr|]; simpl in Hone; [|contradiction].
    exists addr. exact Hone.
Qed.

Lemma registered_unique (c : Cache) (sh1 sh2 : ShaderPtr) :
  coherent c → registered c sh1 → registered c sh2 →
  Shader.gpu_addr (Shader.shader_obj sh1) = Shader.gpu_addr (Shader.shader_obj sh2) →
  sh1 = sh2.
Proof.
  intros Hco [a1 H1'] [a2 H2'] Hsame.
  rewrite (shader_keyed _ Hco _ _ H1'), (shader_keyed _ Hco _ _ H2') in Hsame.
  subst a2. congruence.
Qed.

(** After [GetShaders] the objects of [last_shaders] are registered. *)
Lemma tracked_set_last_shaders (c : Cache) (addrs : list (option Z))
    (shs : list (option ShaderPtr)) :
  coherent c → Forall2 (resolved_in c) addrs shs →
  tracked (set_last_shaders shs c).
Proof.
  intros Hco Hres. split; simpl.
  - intros sh Hin. destruct (resolved_member c addrs shs sh Hres Hin) as [a Ha].
    apply (shader_allocated _ Hco _ _ Ha).
  - intros sh sh' Hin Hreg. left.
    destruct (resolved_member c addrs shs sh Hres Hin) as [a Ha].
    rewrite (shader_keyed _ Hco _ _ Ha) in Hreg. congruence.
  - intros sh1 sh2 H1' H2'. apply (registered_unique c); [exact Hco | |];
      eapply resolved_member; eassumption.
Qed.

Lemma graphics_miss_extends (env : Env) (key : GraphicsKey) (c : Cache) :
  extends c (graphics_miss env key c).2.
Proof.
  pose proof (graphics_miss_cases env key c) as Hm.
  pose proof (resolve_stages_extends env (referenced_programs key) 0 c) as Hr.
  destruct (resolve_stages env 0 (referenced_programs key) c) as [[shs|e] c1];
    simpl in Hr; [|rewrite Hm; exact Hr].
  destruct Hr as [L N S].
  destruct (build_graphics env key shs (binding_layout shs)); rewrite Hm;
    split; simpl; auto.
Qed.

Lemma tracked_after (r : Request) (c : Cache) :
  coherent c → tracked c → tracked (after r c).
Proof.
  intros Hco Htr. destruct r as [env|env key|env key|sh]; simpl.
  - unfold GetShaders, bind.
    pose proof (resolve_stages_extends env (bound_programs env) 0 c) as He.
    pose proof (resolve_stages_coherent env (bound_programs env) 0 c Hco) as Hc.
    destruct (resolve_stages env 0 (bound_programs env) c) as [[shs|e] c1] eqn:Hres;
      simpl in *; [|eapply tracked_extends; eassumption].
    apply (tracked_set_last_shaders c1 (bound_programs env)); [exact Hc|].
    eapply resolve_stages_resolved. exact Hres.
  - destruct (graphics_cache c !! key) as [p|] eqn:Hlook.
    + destruct (GetGraphicsPipeline_present env key c p Hco Hlook) as [-> | ->];
        simpl; [exact Htr|].
      apply (tracked_extends c); [exact Htr|]. split; simpl; auto.
    + rewrite GetGraphicsPipeline_absent by assumption.
      eapply tracked_extends; [exact Htr | apply graphics_miss_extends].
  - apply (tracked_extends c); [exact Htr|]. unfold GetComputePipeline.
    destruct (compute_cache c !! key); [apply extends_refl|]. unfold bind.
    pose proof (GetOrCreate_extends env ComputeStage (Compute.shader key) c) as Hg.
    destruct (GetOrCreate env ComputeStage (Compute.shader key) c) as [[sh|e] c1];
      simpl in Hg; [|exact Hg].
    destruct Hg as [L N S]. unfold construct_compute.
    destruct (build_compute env key sh _); split; simpl; auto.
  - apply (tracked_extends c); [exact Htr|]. split; simpl; auto.
    intros a s Ha. apply lookup_delete_Some in Ha as [_ Ha]. left. exact Ha.
Qed.

Lemma reachable_tracked (c : Cache) : reachable c → tracked c.
Proof.
  induction 1 as [k0|r c Hreach IH].
  - split; simpl; intros *; intros Hin; apply elem_of_nil in Hin; contradiction.
  - apply tracked_after; [apply reachable_coherent, Hreach | exact IH].
Qed.

(** C8, as the cache keeps it. In a reachable cache two registered Shader
    Objects with the same GPU address are one object. Two live objects
    with the same address are one object, or one of them is the registered
    object and the other an older object that was unregistered and that
    [last_shaders] still references. Right after a successful [GetShaders]
    every live object is registered, so there two live objects with the
    same address are one object. When [GetShaders] has succeeded, a second
    call with the same bound addresses returns, slot by slot, the same
    objects, whatever the decompiler would answer now. *)
Theorem shader_objects_per_address (c : Cache) :
  reachable c →
  (∀ sh1 sh2 : ShaderPtr,
     registered c sh1 → registered c sh2 →
     Shader.gpu_addr (Shader.shader_obj sh1) = Shader.gpu_addr (Shader.shader_obj sh2) →
     sh1 = sh2)
  ∧ (∀ sh1 sh2 : ShaderPtr,
       live c sh1 → live c sh2 →
       Shader.gpu_addr (Shader.shader_obj sh1) = Shader.gpu_addr (Shader.shader_obj sh2) →
       sh1 = sh2
       ∨ (registered c sh1 ∧ ¬ registered c sh2
          ∧ (Shader.shader_ref sh2 < Shader.shader_ref sh1)%nat)
       ∨ (registered c sh2 ∧ ¬ registered c sh1
          ∧ (Shader.shader_ref sh1 < Shader.shader_ref sh2)%nat))
  ∧ (∀ (env : Env) (shs : list (option ShaderPtr)) (c1 : Cache),
       GetShaders env c = (Ok shs, c1) →
       (∀ sh, live c1 sh → registered c1 sh)
       ∧ (∀ sh1 sh2 : ShaderPtr,
            live c1 sh1 → live c1 sh2 →
            Shader.gpu_addr (Shader.shader_obj sh1)
            = Shader.gpu_addr (Shader.shader_obj sh2) →
            sh1 = sh2))
  ∧ (∀ (env env' : Env) (shs : list (option ShaderPtr)) (c1 : Cache),
       GetShaders env c = (Ok shs, c1) →
       bound_programs env' = bound_programs env →
       ∃ c2, GetShaders env' c1 = (Ok shs, c2)).
Proof.
  intros Hreach. apply reachable_coherent in Hreach as Hco.
  apply reachable_tracked in Hreach as Htr.
  assert (Hstale : ∀ sh sh' : ShaderPtr,
            Some sh ∈ last_shaders c → registered c sh' →
            Shader.gpu_addr (Shader.shader_obj sh) = Shader.gpu_addr (Shader.shader_obj sh') →
            sh = sh'
            ∨ (¬ registered c sh
               ∧ (Shader.shader_ref sh < Shader.shader_ref sh')%nat)).
  { intros sh sh' Hin [a Ha] Hsame.
    pose proof (shader_keyed _ Hco _ _ Ha) as Hkey.
    rewrite <- Hkey, <- Hsame in Ha.
    destruct (last_older _ Htr sh sh' Hin Ha) as [->|Hlt]; [left; reflexivity|].
    right. split; [|exact Hlt]. intros [b Hb].
    rewrite <- (shader_keyed _ Hco _ _ Hb) in Hb.
    assert (sh = sh') by congruence. subst sh'. lia. }
  split; [|split; [|split]].
  - intros sh1 sh2. apply registered_unique, Hco.
  - intros sh1 sh2 [R1|L1] [R2|L2] Hsame.
    + left. apply (registered_unique c); assumption.
    + destruct (Hstale sh2 sh1 L2 R1 (eq_sym Hsame)) as [->|[Hn Hlt]];
        [left; reflexivity | right; left; auto].
    + destruct (Hstale sh1 sh2 L1 R2 Hsame) as [->|[Hn Hlt]];
        [left; reflexivity | right; right; auto].
    + left. apply (last_unique _ Htr); assumption.
  - intros env shs c1 Hget. unfold GetShaders in Hget.
    apply bind_ok_inv in Hget as (shs' & c0 & Hres & Hret).
    injection Hret as <- <-.
    pose proof (resolve_stages_coherent env (bound_programs env) 0 c Hco) as Hco0.
    rewrite Hres in Hco0. simpl in Hco0.
    apply resolve_stages_resolved in Hres.
    assert (Hall : ∀ sh, live (set_last_shaders shs' c0) sh
                         → registered (set_last_shaders shs' c0) sh).
    { intros sh [Hr|Hin]; [exact Hr|].
      apply (resolved_member c0 _ _ sh Hres Hin). }
    split; [exact Hall|].
    intros sh1 sh2 L1 L2.
    apply (registered_unique (set_last_shaders shs' c0));
      [apply coherent_set_last_shaders, Hco0 | apply Hall, L1 | apply Hall, L2].
  - intros env env' shs c1 Hget Hbound. unfold GetShaders in Hget.
    apply bind_ok_inv in Hget as (shs' & c0 & Hres & Hret).
    injection Hret as <- <-.
    apply resolve_stages_resolved in Hres.
    eexists. unfold GetShaders, bind. rewrite Hbound.
    rewrite (resolve_stages_hit env' (bound_programs env) 0 _ shs');
      [reflexivity|].
    apply (resolved_in_same_shaders c0); [reflexivity | exact Hres].
Qed.

End CacheFacts.

(** ** The properties on a running cache *)

Lemma graphics_pipeline_instance_is_stable_witness :
  (Cache.GetGraphicsPipeline Sample.env (Sample.draw_key 1)
     (Cache.after_all
        [ Cache.CallGetGraphicsPipeline Sample.env (Sample.draw_key 2);
          Cache.CallUnregister (Sample.shader_at 0 0x1000);
          Cache.CallGetShaders Sample.env ]
        (Cache.GetGraphicsPipeline Sample.env (Sample.draw_key 1) Sample.fresh).2)).1
  = Cache.Ok 2%nat
  ∧ ∃ c3,
      Cache.GetGraphicsPipeline Sample.env (Sample.draw_key 1)
        (Cache.GetGraphicsPipeline Sample.env (Sample.draw_key 2)
           (Cache.GetGraphicsPipeline Sample.env (Sample.draw_key 1) Sample.fresh).2).2
      = (Cache.Ok 2%nat, c3)
      ∧ size (Cache.graphics_cache c3) = 2%nat
      ∧ 2%nat ≠ 3%nat.
Proof.
  split.
  - apply (proj1 graphics_pipeline_instance_is_stable
             Sample.fresh
             (Cache.GetGraphicsPipeline Sample.env (Sample.draw_key 1) Sample.fresh).2
             Sample.env Sample.env (Sample.draw_key 1) 2%nat).
    + apply Cache.reachable_init.
    + vm_compute. reflexivity.
  - apply (proj2 graphics_pipeline_instance_is_stable
             (Sample.graphics_key 0 [0; 0; 0; 0; 0; 0] 0)
             (Sample.draw_key 1) (Sample.draw_key 2)
             Sample.env Sample.env Sample.env 2%nat 3%nat
             (Cache.GetGraphicsPipeline Sample.env (Sample.draw_key 1) Sample.fresh).2).
    + discriminate.
    + vm_compute. reflexivity.
    + vm_compute. reflexivity.
Defined.

Lemma failed_construction_is_not_cached_witness :
  Cache.graphics_cache
    (Cache.GetGraphicsPipeline Sample.env (Sample.draw_key 13) Sample.fresh).2
  !! Sample.draw_key 13 = None.
Proof.
  refine (proj1 (proj2
    (failed_construction_is_not_cached Sample.fresh
       (Cache.GetGraphicsPipeline Sample.env (Sample.draw_key 13) Sample.fresh).2
       Sample.env (Sample.draw_key 13) _ _))).
  - apply Cache.reachable_init.
  - vm_compute. reflexivity.
Defined.

Lemma unregister_forgets_the_shader_only_witness :
  Cache.shader_cache
    (Cache.Unregister (Sample.shader_at 0 0x1000)
       (Cache.after (Cache.CallGetShaders Sample.env) Sample.fresh))
  !! 0x1000 = None.
Proof.
  refine (proj1
    (unregister_forgets_the_shader_only
       (Cache.after (Cache.CallGetShaders Sample.env) Sample.fresh)
       0x1000 (Sample.shader_at 0 0x1000) _ _)).
  - apply Cache.reachable_after, Cache.reachable_init.
  - vm_compute. reflexivity.
Defined.

Lemma shader_objects_per_address_witness :
  ∃ c2,
    Cache.GetShaders Sample.env (Cache.GetShaders Sample.env Sample.fresh).2
    = (Cache.Ok [ Some (Sample.shader_at 0 0x1000); None; None; None; None;
                  Some (Sample.shader_at 1 0x2000) ], c2).
Proof.
  refine (proj2 (proj2 (proj2
    (shader_objects_per_address Sample.fresh _)))
    Sample.env Sample.env _ (Cache.GetShaders Sample.env Sample.fresh).2 _ _).
  - apply Cache.reachable_init.
  - vm_compute. reflexivity.
  - reflexivity.
Defined.

(** After [GetShaders], the invalidation of the vertex program and a draw
    that needs it again, [last_shaders] still references the first object
    of address 0x1000 while the object store holds a second one: two live
    Shader Objects share one GPU address. *)
Lemma two_live_shader_objects_at_one_address :
  ¬ (∀ c : Cache.VKPipelineCache (FixedPipelineState := Z)
             (RenderPassParams := Z) (Registry := unit) (ShaderIR := Z),
       Cache.reachable c →
       ∀ sh1 sh2,
         Cache.live c sh1 → Cache.live c sh2 →
         Shader.gpu_addr (Shader.shader_obj sh1)
         = Shader.gpu_addr (Shader.shader_obj sh2) →
         sh1 = sh2).
Proof.
  intros Hclaim.
  assert (Hlast : Cache.last_shaders Sample.redrawn
                  = [ Some (Sample.shader_at 0 0x1000); None; None; None; None;
                      Some (Sample.shader_at 1 0x2000) ])
    by (vm_compute; reflexivity).
  assert (Hsame : Sample.shader_at 0 0x1000 = Sample.shader_at 2 0x1000).
  { apply (Hclaim Sample.redrawn).
    - unfold Sample.redrawn. do 3 apply Cache.reachable_after.
      apply Cache.reachable_init.
    - right. rewrite Hlast. apply elem_of_cons. left. reflexivity.
    - left. exists 0x1000. vm_compute. reflexivity.
    - reflexivity. }
  discriminate Hsame.
Qed.

(** * Further properties of the keys and of the shader object *)

(** ** Words and exclusive or *)

Lemma lxor_cancel_r (x y c : Z) : Z.lxor x c = Z.lxor y c → x = y.
Proof.
  intros Heq.
  assert (Hx : x = Z.lxor (Z.lxor x c) c)
    by (rewrite Z.lxor_assoc, Z.lxor_nilpotent, Z.lxor_0_r; reflexivity).
  assert (Hy : y = Z.lxor (Z.lxor y c) c)
    by (rewrite Z.lxor_assoc, Z.lxor_nilpotent, Z.lxor_0_r; reflexivity).
  congruence.
Qed.

Lemma lxor_cancel_l (x y c : Z) : Z.lxor c x = Z.lxor c y → x = y.
Proof. rewrite !(Z.lxor_comm c). apply lxor_cancel_r. Qed.

Lemma lxor_u64 (a b : Z) : Range.u64 a → Range.u64 b → Range.u64 (Z.lxor a b).
Proof.
  unfold Range.u64. intros Ha Hb. split.
  - apply Z.lxor_nonneg. lia.
  - destruct (Z.eq_dec (Z.lxor a b) 0) as [->|Hne]; [reflexivity|].
    assert (Hpos : 0 < Z.lxor a b).
    { assert (0 ≤ Z.lxor a b) by (apply Z.lxor_nonneg; lia). lia. }
    apply Z.log2_lt_pow2; [exact Hpos|].
    pose proof (Z.log2_lxor a b) as Hl.
    assert (La : Z.log2 a < 64).
    { destruct (Z.eq_dec a 0) as [->|]; [reflexivity|].
      apply Z.log2_lt_pow2; lia. }
    assert (Lb : Z.log2 b < 64).
    { destruct (Z.eq_dec b 0) as [->|]; [reflexivity|].
      apply Z.log2_lt_pow2; lia. }
    lia.
Qed.

Lemma to_size_t_u64 (x : Z) : Range.u64 (Word.to_size_t x).
Proof. apply Z.mod_pos_bound. reflexivity. Qed.

Lemma size_term_bucket (size : Z) :
  Word.shl (Word.shr size 7) 40 = Range.size_bucket size * 2 ^ 40.
Proof.
  unfold Word.shl, Word.shr, Word.to_size_t, Word.size_t_bits, Range.size_bucket.
  rewrite Z.shiftr_div_pow2, Z.shiftl_mul_pow2 by lia.
  change (2 ^ 64) with (2 ^ 24 * 2 ^ 40).
  apply Z.mul_mod_distr_r; lia.
Qed.

(** ** ComputePipelineCacheKey *)

(** X1. [operator==] on compute keys is an equivalence relation, as a
    key of a [std::unordered_map] has to be. *)
Theorem compute_eqb_equivalence :
  (∀ a, Compute.eqb a a = true)
  ∧ (∀ a b, Compute.eqb a b = Compute.eqb b a)
  ∧ (∀ a b c,
       Compute.eqb a b = true → Compute.eqb b c = true → Compute.eqb a c = true).
Proof.
  split; [|split].
  - intros a. apply compute_eqb_eq. reflexivity.
  - intros a b. destruct (Compute.eqb a b) eqn:Hab, (Compute.eqb b a) eqn:Hba;
      try reflexivity.
    + apply compute_eqb_eq in Hab. subst b.
      rewrite (proj2 (compute_eqb_eq a a) eq_refl) in Hba. discriminate.
    + apply compute_eqb_eq in Hba. subst b.
      rewrite (proj2 (compute_eqb_eq a a) eq_refl) in Hab. discriminate.
  - intros a b c Hab Hbc. apply compute_eqb_eq in Hab, Hbc.
    apply compute_eqb_eq. congruence.
Qed.

Lemma compute_eqb_equivalence_witness :
  Compute.eqb (Sample.compute_key 0x1000 256 8 8 1)
              (Sample.compute_key 0x1000 256 8 8 1) = true.
Proof.
  apply (proj2 (proj2 compute_eqb_equivalence)
           (Sample.compute_key 0x1000 256 8 8 1)
           (Sample.compute_key 0x1000 256 8 8 1)
           (Sample.compute_key 0x1000 256 8 8 1)); reflexivity.
Defined.

(** X2. The hash of a compute key whose fields hold values of their
    types is a 64-bit word: no term of the exclusive or leaves the
    word. *)
Theorem compute_hash_is_a_word (k : Compute.ComputePipelineCacheKey) :
  Range.compute_key k → Range.u64 (Compute.Hash k).
Proof.
  destruct k as [s m [[x y] z]]. unfold Range.compute_key, Compute.Hash; simpl.
  intros (Hs & _ & Hx & _ & _).
  repeat apply lxor_u64; try apply to_size_t_u64; try exact Hs.
  unfold Range.u64, Range.u32 in *. lia.
Qed.

Lemma compute_hash_is_a_word_witness :
  Range.u64 (Compute.Hash (Sample.compute_key 0xFFFFFFFFFFFFFFFF 0xFFFFFFFF
                             0xFFFFFFFF 0xFFFFFFFF 0xFFFFFFFF)).
Proof.
  apply (compute_hash_is_a_word
           (Sample.compute_key 0xFFFFFFFFFFFFFFFF 0xFFFFFFFF
              0xFFFFFFFF 0xFFFFFFFF 0xFFFFFFFF)).
  unfold Range.compute_key, Range.u64, Range.u32. simpl. lia.
Defined.

(** X3. Two compute keys with the same shader address and workgroup size
    have the same hash exactly when their shared-memory sizes agree on
    bits 7 to 30: the low seven bits are shifted out on the right, and bit
    31 is shifted out of the 64-bit word on the left. So a size and the
    same size plus [2^31] always collide. *)
Theorem compute_hash_collisions_in_size :
  (∀ a b,
     Compute.shader a = Compute.shader b →
     Compute.workgroup_size a = Compute.workgroup_size b →
     (Compute.Hash a = Compute.Hash b
      ↔ Range.size_bucket (Compute.shared_memory_size a)
        = Range.size_bucket (Compute.shared_memory_size b)))
  ∧ (∀ addr size x y z,
       Compute.Hash (Sample.compute_key addr (size + 2 ^ 31) x y z)
       = Compute.Hash (Sample.compute_key addr size x y z)).
Proof.
  assert (Hchar : ∀ a b,
     Compute.shader a = Compute.shader b →
     Compute.workgroup_size a = Compute.workgroup_size b →
     (Compute.Hash a = Compute.Hash b
      ↔ Range.size_bucket (Compute.shared_memory_size a)
        = Range.size_bucket (Compute.shared_memory_size b))).
  { intros [s m [[x y] z]] [s' m' [[x' y'] z']]; simpl.
    intros <- [= <- <- <-]. unfold Compute.Hash; simpl.
    rewrite !size_term_bucket. split.
    - intros Heq. do 3 apply lxor_cancel_r in Heq.
      apply lxor_cancel_l in Heq. lia.
    - intros ->. reflexivity. }
  split; [exact Hchar|].
  intros addr size x y z. apply Hchar; try reflexivity. simpl.
  unfold Range.size_bucket.
  replace (size + 2 ^ 31) with (size + 2 ^ 24 * 2 ^ 7) by lia.
  rewrite Z.div_add by lia. rewrite Z.add_mod by lia.
  rewrite Z.mod_same, Z.add_0_r, Z.mod_mod by lia. reflexivity.
Qed.

Lemma compute_hash_collisions_in_size_witness :
  Compute.Hash (Sample.compute_key 0x1000 256 8 8 1)
  = Compute.Hash (Sample.compute_key 0x1000 300 8 8 1).
Proof.
  apply (proj1 compute_hash_collisions_in_size
           (Sample.compute_key 0x1000 256 8 8 1)
           (Sample.compute_key 0x1000 300 8 8 1)); reflexivity.
Defined.

(** X4. The hash separates compute keys that differ only in the shader
    address, and keys that differ only in the first workgroup component:
    with the other fields equal, equal hashes force equal addresses
    (components). *)
Theorem compute_hash_separates_single_fields :
  (∀ a b,
     Compute.shared_memory_size a = Compute.shared_memory_size b →
     Compute.workgroup_size a = Compute.workgroup_size b →
     Compute.Hash a = Compute.Hash b →
     a = b)
  ∧ (∀ addr size x x' y z,
       Compute.Hash (Sample.compute_key addr size x y z)
       = Compute.Hash (Sample.compute_key addr size x' y z) →
       x = x').
Proof.
  split.
  - intros [s m [[x y] z]] [s' m' [[x' y'] z']]; simpl.
    intros <- [= <- <- <-]. unfold Compute.Hash; simpl. intros Heq.
    do 4 apply lxor_cancel_r in Heq. subst. reflexivity.
  - intros addr size x x' y z. unfold Compute.Hash; simpl. intros Heq.
    do 2 apply lxor_cancel_r in Heq. apply lxor_cancel_l in Heq. exact Heq.
Qed.

Lemma compute_hash_separates_single_fields_witness :
  Sample.compute_key 0x1000 256 8 8 1 = Sample.compute_key 0x1000 256 8 8 1.
Proof.
  apply (proj1 compute_hash_separates_single_fields
           (Sample.compute_key 0x1000 256 8 8 1)
           (Sample.compute_key 0x1000 256 8 8 1)); reflexivity.
Defined.

(** X5. The fields overlap in the hash. The shader address and the first
    workgroup component can be exchanged without changing it, and a second
    workgroup component below [2^16] can be folded into the first one:
    (x, y, z) and (x xor (y << 16), 0, z) collide, and the second key is a
    key of [u32] components again. *)
Theorem compute_hash_fields_overlap :
  (∀ addr size x y z,
     Compute.Hash (Sample.compute_key addr size x y z)
     = Compute.Hash (Sample.compute_key x size addr y z))
  ∧ (∀ addr size x y z,
       Range.u32 x → 0 ≤ y < 2 ^ 16 →
       Range.u32 (Z.lxor x (y * 2 ^ 16))
       ∧ Compute.Hash (Sample.compute_key addr size x y z)
         = Compute.Hash (Sample.compute_key addr size (Z.lxor x (y * 2 ^ 16)) 0 z)).
Proof.
  split.
  - intros addr size x y z. unfold Compute.Hash; simpl.
    apply Z.bits_inj'. intros n _. rewrite !Z.lxor_spec.
    destruct (Z.testbit addr n), (Z.testbit x n),
      (Z.testbit (Word.shl (Word.shr size 7) 40) n),
      (Z.testbit (Word.shl y 16) n), (Z.testbit (Word.shl z 24) n); reflexivity.
  - intros addr size x y z Hx Hy. split.
    + assert (Hin : Range.u64 (Z.lxor x (y * 2 ^ 16))).
      { apply lxor_u64; unfold Range.u64, Range.u32 in *; lia. }
      unfold Range.u32 in *. split; [apply Hin|].
      destruct (Z.eq_dec (Z.lxor x (y * 2 ^ 16)) 0) as [->|Hne]; [reflexivity|].
      apply Z.log2_lt_pow2; [unfold Range.u64 in Hin; lia|].
      pose proof (Z.log2_lxor x (y * 2 ^ 16)) as Hl.
      assert (Lx : Z.log2 x < 32).
      { destruct (Z.eq_dec x 0) as [->|]; [reflexivity|].
        apply Z.log2_lt_pow2; lia. }
      assert (Ly : Z.log2 (y * 2 ^ 16) < 32).
      { destruct (Z.eq_dec y 0) as [->|]; [reflexivity|].
        apply Z.log2_lt_pow2; lia. }
      lia.
    + unfold Compute.Hash; simpl.
      assert (Hshl : Word.shl y 16 = y * 2 ^ 16).
      { unfold Word.shl, Word.to_size_t, Word.size_t_bits.
        rewrite Z.shiftl_mul_pow2 by lia. apply Z.mod_small. lia. }
      rewrite Hshl. change (Word.shl 0 16) with 0. rewrite Z.lxor_0_r.
      apply Z.bits_inj'. intros n _. rewrite !Z.lxor_spec.
      destruct (Z.testbit addr n), (Z.testbit x n),
        (Z.testbit (Word.shl (Word.shr size 7) 40) n),
        (Z.testbit (y * 2 ^ 16) n), (Z.testbit (Word.shl z 24) n); reflexivity.
Qed.

Lemma compute_hash_fields_overlap_witness :
  Compute.Hash (Sample.compute_key 0x1000 256 8 1 1)
  = Compute.Hash (Sample.compute_key 0x1000 256 65544 0 1).
Proof.
  apply (proj2 compute_hash_fields_overlap 0x1000 256 8 1 1).
  - unfold Range.u32. lia.
  - lia.
Defined.

(** ** GraphicsPipelineCacheKey *)

Lemma boost_keeps_words : Range.keeps_words boost_hash_combine.
Proof.
  intros seed v Hseed. unfold hash_combine, boost_hash_combine.
  apply lxor_u64; [exact Hseed | apply to_size_t_u64].
Qed.

Lemma word_add_cancel (x y c : Z) :
  Range.u64 x → Range.u64 y → Word.add x c = Word.add y c → x = y.
Proof.
  unfold Word.add, Word.to_size_t, Word.size_t_bits. intros Hx Hy Heq.
  assert (Hd : (x - y) mod 2 ^ 64 = 0).
  { replace (x - y) with ((x + c) - (y + c)) by lia.
    rewrite Zminus_mod, Heq, Z.sub_diag. reflexivity. }
  apply Z.mod_divide in Hd; [|lia]. destruct Hd as [q Hq].
  unfold Range.u64 in *. lia.
Qed.

Lemma boost_separates_values : Range.separates_values boost_hash_combine.
Proof.
  intros seed v1 v2 H1 H2. unfold hash_combine, boost_hash_combine.
  intros Heq. apply lxor_cancel_l in Heq.
  apply word_add_cancel in Heq; try apply to_size_t_u64.
  apply word_add_cancel in Heq; try apply to_size_t_u64.
  apply word_add_cancel in Heq; assumption.
Qed.

Section GraphicsKeyMore.

Context `{KeyField Fixed} `{KeyField Pass}.

Lemma fold_combine_word (combine : HashCombine) (addrs : list Z) (h0 : Z) :
  Range.keeps_words combine → Range.u64 h0 →
  Range.u64 (fold_left (λ hash shader, hash_combine hash shader) addrs h0).
Proof.
  intros Hkeep. revert h0. induction addrs as [|a addrs IH]; intros h0 Hh; simpl.
  - exact Hh.
  - apply IH, Hkeep, Hh.
Qed.

(** X6. [operator==] on graphics keys is an equivalence relation. *)
Theorem graphics_eqb_equivalence :
  (∀ a : Graphics.GraphicsPipelineCacheKey Fixed Pass, Graphics.eqb a a = true)
  ∧ (∀ a b : Graphics.GraphicsPipelineCacheKey Fixed Pass,
       Graphics.eqb a b = Graphics.eqb b a)
  ∧ (∀ a b c : Graphics.GraphicsPipelineCacheKey Fixed Pass,
       Graphics.eqb a b = true → Graphics.eqb b c = true →
       Graphics.eqb a c = true).
Proof.
  split; [|split].
  - intros a. apply graphics_eqb_eq. reflexivity.
  - intros a b. destruct (Graphics.eqb a b) eqn:Hab, (Graphics.eqb b a) eqn:Hba;
      try reflexivity.
    + apply graphics_eqb_eq in Hab. subst b.
      rewrite (proj2 (graphics_eqb_eq a a) eq_refl) in Hba. discriminate.
    + apply graphics_eqb_eq in Hba. subst b.
      rewrite (proj2 (graphics_eqb_eq a a) eq_refl) in Hab. discriminate.
  - intros a b c Hab Hbc. apply graphics_eqb_eq in Hab, Hbc.
    apply graphics_eqb_eq. congruence.
Qed.

(** X7. With a combiner that returns a word whenever its seed is one, the
    hash of a graphics key is a 64-bit word, whatever the shader addresses
    are and however many stages there are. *)
Theorem graphics_hash_is_a_word (combine : HashCombine)
    (k : Graphics.GraphicsPipelineCacheKey Fixed Pass) :
  Range.keeps_words combine → Range.u64 (Graphics.Hash k).
Proof.
  intros Hkeep. unfold Graphics.Hash. apply Hkeep.
  apply fold_combine_word; [exact Hkeep|]. apply field_Hash_range.
Qed.

(** X8. The render-pass hash is combined last: with a combiner that
    separates values, two keys with the same fixed state and the same
    shader addresses have the same hash exactly when their render-pass
    parameters have the same hash. *)
Theorem graphics_hash_separates_renderpass (combine : HashCombine)
    (k1 k2 : Graphics.GraphicsPipelineCacheKey Fixed Pass) :
  Range.separates_values combine →
  Graphics.fixed_state k1 = Graphics.fixed_state k2 →
  Graphics.shaders k1 = Graphics.shaders k2 →
  (Graphics.Hash k1 = Graphics.Hash k2
   ↔ field_Hash (Graphics.renderpass_params k1)
     = field_Hash (Graphics.renderpass_params k2)).
Proof.
  intros Hsep Hfs Hsh. unfold Graphics.Hash. rewrite Hfs, Hsh. split.
  - apply Hsep; apply field_Hash_range.
  - intros ->. reflexivity.
Qed.

End GraphicsKeyMore.

Lemma graphics_eqb_equivalence_witness :
  Graphics.eqb (Sample.draw_key 1) (Sample.draw_key 1) = true.
Proof.
  apply (proj2 (proj2 graphics_eqb_equivalence)
           (Sample.draw_key 1) (Sample.draw_key 1) (Sample.draw_key 1));
    reflexivity.
Defined.

Lemma graphics_hash_is_a_word_witness :
  Range.u64 (Graphics.Hash (combine := boost_hash_combine) (Sample.draw_key 1)).
Proof.
  apply (graphics_hash_is_a_word boost_hash_combine (Sample.draw_key 1)).
  exact boost_keeps_words.
Defined.

Lemma graphics_hash_separates_renderpass_witness :
  Graphics.Hash (combine := boost_hash_combine)
    (Sample.graphics_key 1 [0x1000; 0; 0; 0; 0; 0x2000] 5)
  = Graphics.Hash (combine := boost_hash_combine)
    (Sample.graphics_key 1 [0x1000; 0; 0; 0; 0; 0x2000] (5 + 2 ^ 64)).
Proof.
  apply (graphics_hash_separates_renderpass boost_hash_combine
           (Sample.graphics_key 1 [0x1000; 0; 0; 0; 0; 0x2000] 5)
           (Sample.graphics_key 1 [0x1000; 0; 0; 0; 0; 0x2000] (5 + 2 ^ 64))).
  - exact boost_separates_values.
  - reflexivity.
  - reflexivity.
  - reflexivity.
Defined.

(** ** CachedShader *)

(** X9. The size in bytes of a shader object is a 64-bit word and a
    multiple of eight; when the byte count of the bytecode fits in a word,
    the size is zero exactly for empty bytecode. *)
Theorem shader_size_shape {Registry ShaderIR : Type}
    (s : Shader.CachedShader Registry ShaderIR) :
  Range.u64 (Shader.GetSizeInBytes s)
  ∧ Shader.GetSizeInBytes s mod 8 = 0
  ∧ (Z.of_nat (length (Shader.program_code s)) * 8 < 2 ^ Word.size_t_bits →
     (Shader.GetSizeInBytes s = 0 ↔ Shader.program_code s = [])).
Proof.
  unfold Shader.GetSizeInBytes, Shader.sizeof_u64.
  split; [apply to_size_t_u64|]. split.
  - unfold Word.to_size_t, Word.size_t_bits.
    set (n := Z.of_nat (length (Shader.program_code s))).
    change (2 ^ 64) with (2 ^ 61 * 8).
    rewrite Z.mul_mod_distr_r by lia. apply Z.mod_mul. lia.
  - intros Hfit. unfold Word.to_size_t. rewrite Z.mod_small by lia.
    destruct (Shader.program_code s) as [|w code]; simpl length.
    + split; reflexivity.
    + split; [lia | discriminate].
Qed.

Lemma shader_size_shape_witness :
  Shader.GetSizeInBytes
    (Shader.shader_obj (Sample.shader_at 0 0x1000)) = 0
  ↔ Shader.program_code (Shader.shader_obj (Sample.shader_at 0 0x1000)) = [].
Proof.
  apply (proj2 (proj2 (shader_size_shape
                         (Shader.shader_obj (Sample.shader_at 0 0x1000))))).
  reflexivity.
Defined.
